(** * Movies charts: the data pipelines of [main.js]

    [main.js] loads [movies.csv] with d3, coerces three columns to numbers,
    and derives two series: the total gross per year (line chart) and the
    six directors with the best mean score (bar chart).  Each series feeds
    d3 scales that place the marks.

    The development follows the script top-down:
    - [Js]   : the fragment of JavaScript the script relies on (numbers with
               NaN, [undefined]/[null], unary plus, loose comparison with
               [null], relational operators, [Array.prototype.sort]);
    - [D3]   : the d3 calls of the script ([sum], [mean], [max], [rollup],
               [scaleLinear], [scaleBand]), transcribed from d3-array and
               d3-scale;
    - [Main] : the script itself, statement by statement.

    Numbers.  A JavaScript number is a binary64 float.  Here a number is
    either [NaN] or an exact rational: rounding, overflow to an infinity and
    the sign of zero are abstracted away.  Every statement below is
    therefore about exact arithmetic. *)

From Stdlib Require Import QArith Qcanon List String Ascii Bool Lia.
From Stdlib Require Import Permutation Sorted Qround Lqa PeanoNat.
Import ListNotations.

Local Open Scope Qc_scope.

(* ================================================================== *)
(** * Rationals: boolean tests *)
(* ================================================================== *)

Definition Qc_leb (x y : Qc) : bool := Qle_bool x y.
Definition Qc_ltb (x y : Qc) : bool := negb (Qle_bool y x).
Definition Qc_of_Z (z : Z) : Qc := Q2Qc (inject_Z z).
Definition Qc_of_nat (n : nat) : Qc := Qc_of_Z (Z.of_nat n).

(* ================================================================== *)
(** * The JavaScript fragment *)
(* ================================================================== *)

Module Js.

(** The Number type, without infinities. *)
Inductive number : Type :=
| NaN
| Num (q : Qc).

(** The values that reach the numeric fields of a record. *)
Inductive value : Type :=
| Undefined
| Null
| Number (n : number).

Definition isNaN (n : number) : bool :=
  match n with NaN => true | Num _ => false end.

(** ToBoolean on a number: [NaN] and zero are falsy. *)
Definition truthy (n : number) : bool :=
  match n with
  | NaN => false
  | Num q => negb (Qc_eq_bool q 0)
  end.

(** ToNumber, written [+x] in the script. *)
Definition ToNumber (v : value) : number :=
  match v with
  | Undefined => NaN
  | Null => Num 0
  | Number n => n
  end.

Definition add (x y : number) : number :=
  match x, y with
  | Num p, Num q => Num (p + q)
  | _, _ => NaN
  end.

Definition sub (x y : number) : number :=
  match x, y with
  | Num p, Num q => Num (p - q)
  | _, _ => NaN
  end.

Definition mul (x y : number) : number :=
  match x, y with
  | Num p, Num q => Num (p * q)
  | _, _ => NaN
  end.

(** Division.  Every division of the script has a truthy divisor; a zero
    divisor would give an infinity or NaN in JavaScript and is mapped to
    [NaN] here, for want of infinities. *)
Definition div (x y : number) : number :=
  match x, y with
  | Num p, Num q => if Qc_eq_bool q 0 then NaN else Num (p / q)
  | _, _ => NaN
  end.

(** [x < y] and [x >= y] on numbers: false as soon as one side is NaN. *)
Definition number_lt (x y : number) : bool :=
  match x, y with
  | Num p, Num q => Qc_ltb p q
  | _, _ => false
  end.

Definition number_ge (x y : number) : bool :=
  match x, y with
  | Num p, Num q => Qc_leb q p
  | _, _ => false
  end.

(** The relational operators on values convert both sides with ToNumber. *)
Definition lt (x y : value) : bool := number_lt (ToNumber x) (ToNumber y).
Definition ge (x y : value) : bool := number_ge (ToNumber x) (ToNumber y).

(** [x - y] on values. *)
Definition minus (x y : value) : number := sub (ToNumber x) (ToNumber y).

(** [x != null]: loose inequality, false for [null] and [undefined]. *)
Definition neq_null (v : value) : bool :=
  match v with
  | Undefined | Null => false
  | Number _ => true
  end.

(** [x === undefined]. *)
Definition is_undefined (v : value) : bool :=
  match v with Undefined => true | _ => false end.

(** SameValueZero, the key equality of [Map] (there is no signed zero). *)
Definition number_eqb (x y : number) : bool :=
  match x, y with
  | NaN, NaN => true
  | Num p, Num q => Qc_eq_bool p q
  | _, _ => false
  end.

Definition same_value_zero (x y : value) : bool :=
  match x, y with
  | Undefined, Undefined => true
  | Null, Null => true
  | Number m, Number n => number_eqb m n
  | _, _ => false
  end.

(** ** StringToNumber

    The grammar covered is the decimal one: optional white space around
    an optional sign, digits with an optional fraction, an optional
    exponent.  The empty (or blank) string is 0.  Everything else is NaN;
    [Infinity] and the [0x], [0o], [0b] prefixes have no counterpart
    here and fall in that case too. *)

Definition is_white (c : ascii) : bool :=
  match nat_of_ascii c with
  | 9%nat | 10%nat | 11%nat | 12%nat | 13%nat | 32%nat => true
  | _ => false
  end.

Fixpoint drop_white (l : list ascii) : list ascii :=
  match l with
  | [] => []
  | c :: r => if is_white c then drop_white r else l
  end.

Definition trim (l : list ascii) : list ascii :=
  rev (drop_white (rev (drop_white l))).

Definition digit (c : ascii) : option Z :=
  let n := Z.of_nat (nat_of_ascii c) in
  if ((48 <=? n) && (n <=? 57))%Z then Some (n - 48)%Z else None.

(** The longest prefix of digits: its value, its length, what follows. *)
Fixpoint digits (acc : Z) (n : nat) (l : list ascii) : Z * nat * list ascii :=
  match l with
  | [] => (acc, n, [])
  | c :: r =>
      match digit c with
      | Some d => digits (10 * acc + d)%Z (S n) r
      | None => (acc, n, l)
      end
  end.

Definition pow10 (e : Z) : Q :=
  if (0 <=? e)%Z then inject_Z (10 ^ e) else Qinv (inject_Z (10 ^ (- e))).

(** An optional exponent part, then the end of the text. *)
Definition exponent (l : list ascii) : option Z :=
  match l with
  | [] => Some 0%Z
  | c :: r =>
      if (Ascii.eqb c "e" || Ascii.eqb c "E")%bool then
        let '(sign, r') :=
          match r with
          | "+"%char :: r' => (1%Z, r')
          | "-"%char :: r' => ((-1)%Z, r')
          | _ => (1%Z, r)
          end in
        match digits 0 0 r' with
        | (e, S _, []) => Some (sign * e)%Z
        | _ => None
        end
      else None
  end.

Definition unsigned_decimal (l : list ascii) : option Q :=
  let '(i, ni, r) := digits 0 0 l in
  match r with
  | "."%char :: r1 =>
      let '(f, nf, r2) := digits 0 0 r1 in
      if Nat.eqb (ni + nf) 0 then None
      else
        match exponent r2 with
        | Some e =>
            Some (Qmult (Qplus (inject_Z i) (Qmult (inject_Z f) (pow10 (- Z.of_nat nf))))
                        (pow10 e))
        | None => None
        end
  | _ =>
      if Nat.eqb ni 0 then None
      else
        match exponent r with
        | Some e => Some (Qmult (inject_Z i) (pow10 e))
        | None => None
        end
  end.

Definition StringToNumber (s : string) : number :=
  match trim (list_ascii_of_string s) with
  | [] => Num 0
  | c :: r =>
      let '(negative, body) :=
        if Ascii.eqb c "-" then (true, r)
        else if Ascii.eqb c "+" then (false, r)
        else (false, c :: r) in
      match unsigned_decimal body with
      | Some q => Num (Q2Qc (if negative then Qopp q else q))
      | None => NaN
      end
  end.

(** ** [Array.prototype.sort]

    [SortCompare] calls the comparator and reads a NaN result as [+0].
    The specification asks for a stable sort and fixes the result only
    when the comparator is consistent; the model is the stable insertion
    sort, which every conforming engine agrees with in that case. *)
Section Sort.
Context {A : Type} (comparator : A -> A -> number).

(** [SortCompare(a, b) <= 0]: [a] may stay before [b]. *)
Definition sort_le (a b : A) : bool :=
  match comparator a b with
  | NaN => true
  | Num v => Qc_leb v 0
  end.

Fixpoint insert (x : A) (l : list A) : list A :=
  match l with
  | [] => [x]
  | y :: r => if sort_le x y then x :: y :: r else y :: insert x r
  end.

Definition sort (l : list A) : list A := fold_right insert [] l.
End Sort.

(** [Array.prototype.slice(0, n)]. *)
Definition slice0 {A : Type} (n : nat) (l : list A) : list A := firstn n l.

(** [x > y], and binary [+] on values that are not text. *)
Definition gt (x y : value) : bool := number_lt (ToNumber y) (ToNumber x).
Definition plus (x y : value) : number := add (ToNumber x) (ToNumber y).

(** [Math.ceil]. *)
Definition Math_ceil (n : number) : number :=
  match n with
  | NaN => NaN
  | Num q => Num (Qc_of_Z (Qceiling q))
  end.

(** ToInt32, written [n | 0]: NaN gives 0, a number is truncated toward
    zero and wrapped into the signed 32-bit range. *)
Definition ToInt32 (n : number) : Z :=
  match n with
  | NaN => 0%Z
  | Num q =>
      let z := Z.quot (Qnum q) (Zpos (Qden q)) in
      ((z + 2 ^ 31) mod 2 ^ 32 - 2 ^ 31)%Z
  end.

End Js.

Import Js.

(* ================================================================== *)
(** * The d3 calls of the script *)
(* ================================================================== *)

Module D3.

(** ** d3-array *)

(** [d3.sum(values, valueof)]: adds the truthy [+valueof(v)], from 0. *)
Definition sum {A : Type} (values : list A) (valueof : A -> value) : number :=
  fold_left
    (fun sum v =>
       let value := ToNumber (valueof v) in
       if truthy value then add sum value else sum)
    values (Num 0).

(** The loop of [d3.mean]: a value counts when it is not nullish and
    [+value >= +value], that is when it is not NaN. *)
Definition mean_step {A : Type} (valueof : A -> value)
           (acc : nat * number) (v : A) : nat * number :=
  let '(count, sum) := acc in
  let value := valueof v in
  if neq_null value && number_ge (ToNumber value) (ToNumber value)
  then (S count, add sum (ToNumber value))
  else (count, sum).

(** [d3.mean(values, valueof)]: [sum / count], or [undefined] when
    nothing was counted. *)
Definition mean {A : Type} (values : list A) (valueof : A -> value) : value :=
  let '(count, sum) := fold_left (mean_step valueof) values (0%nat, Num 0) in
  match count with
  | O => Undefined
  | S _ => Number (div sum (Num (Qc_of_nat count)))
  end.

(** [d3.max(values, valueof)]: [undefined] until a comparable value is
    met, then the greatest one. *)
Definition max {A : Type} (values : list A) (valueof : A -> value) : value :=
  fold_left
    (fun max v =>
       let value := valueof v in
       if neq_null value && (lt max value || (is_undefined max && ge value value))
       then value else max)
    values Undefined.

(** [d3.rollup(values, reduce, key)].  The groups live in an [InternMap],
    a [Map] that iterates in insertion order: an association list in
    which a new key goes last and a known key receives the value at the
    end of its group. *)
Section Rollup.
Context {A K R : Type} (key_eqb : K -> K -> bool).

Fixpoint group_push (key : K) (v : A) (groups : list (K * list A))
  : list (K * list A) :=
  match groups with
  | [] => [(key, [v])]
  | (k, g) :: rest =>
      if key_eqb k key then (k, g ++ [v]) :: rest
      else (k, g) :: group_push key v rest
  end.

Definition group (values : list A) (keyof : A -> K) : list (K * list A) :=
  fold_left (fun groups v => group_push (keyof v) v groups) values [].

Definition rollup (values : list A) (reduce : list A -> R) (keyof : A -> K)
  : list (K * R) :=
  map (fun kg => (fst kg, reduce (snd kg))) (group values keyof).
End Rollup.

(** ** d3-scale: continuous scales with two-point domain and range *)

Definition constant {A B : Type} (x : B) : A -> B := fun _ => x.

(** [normalize(a, b)]: [x => (x - a) / (b - a)], or a constant when
    [b - a] is falsy: NaN if it is NaN, one half if it is zero. *)
Definition normalize (a b : number) : number -> number :=
  let b := sub b a in
  if truthy b then fun x => div (sub x a) b
  else constant (if isNaN b then NaN else Num (Q2Qc (1 # 2))).

(** [interpolateNumber(a, b)]: [t => a * (1 - t) + b * t]. *)
Definition interpolateNumber (a b : number) : number -> number :=
  fun t => add (mul a (sub (Num 1) t)) (mul b t).

(** [bimap(domain, range, interpolate)]. *)
Definition bimap (domain range : number * number) : number -> number :=
  let '(d0, d1) := domain in
  let '(r0, r1) := range in
  if number_lt d1 d0
  then fun x => interpolateNumber r1 r0 (normalize d1 d0 x)
  else fun x => interpolateNumber r0 r1 (normalize d0 d1 x).

Record linear : Type :=
  { linear_domain : number * number;
    linear_range : number * number }.

(** [d3.scaleLinear().domain([d0, d1]).range([r0, r1])]; [domain]
    converts its bounds with unary plus. *)
Definition scaleLinear (domain : value * value) (range : number * number)
  : linear :=
  {| linear_domain := (ToNumber (fst domain), ToNumber (snd domain));
     linear_range := range |}.

(** Calling the scale: [unknown] (that is [undefined]) for a nullish or
    NaN argument, the piecewise map otherwise (no clamping). *)
Definition linear_apply (s : linear) (x : value) : value :=
  if negb (neq_null x) || isNaN (ToNumber x) then Undefined
  else Number (bimap (linear_domain s) (linear_range s) (ToNumber x)).

(** ** d3-scale: band scales *)

(** The domain of an ordinal scale keeps the first occurrence of each
    value. *)
Fixpoint ordinal_domain (seen values : list string) : list string :=
  match values with
  | [] => rev seen
  | v :: rest =>
      if existsb (String.eqb v) seen then ordinal_domain seen rest
      else ordinal_domain (v :: seen) rest
  end.

Record band : Type :=
  { band_domain : list string;
    band_r0 : number;
    band_r1 : number;
    paddingInner : number;
    paddingOuter : number;
    align : number }.

Definition Math_max (x y : number) : number :=
  match x, y with
  | Num p, Num q => if Qc_ltb p q then y else x
  | _, _ => NaN
  end.

Definition Math_min (x y : number) : number :=
  match x, y with
  | Num p, Num q => if Qc_ltb q p then y else x
  | _, _ => NaN
  end.

(** [d3.scaleBand().domain(d).range([r0, r1]).padding(p)]: [padding]
    sets the outer padding to [p] and the inner one to [min(1, p)];
    [align] keeps its default, one half, and [round] is off. *)
Definition scaleBand (domain : list string) (range : number * number)
           (padding : number) : band :=
  {| band_domain := ordinal_domain [] domain;
     band_r0 := fst range;
     band_r1 := snd range;
     paddingInner := Math_min (Num 1) padding;
     paddingOuter := padding;
     align := Num (Q2Qc (1 # 2)) |}.

(** What [rescale] computes. *)
Section Rescale.
Variable s : band.

Definition band_n : number := Num (Qc_of_nat (List.length (band_domain s))).
Definition band_reverse : bool := number_lt (band_r1 s) (band_r0 s).
Definition band_start0 : number := if band_reverse then band_r1 s else band_r0 s.
Definition band_stop : number := if band_reverse then band_r0 s else band_r1 s.

Definition band_step : number :=
  div (sub band_stop band_start0)
      (Math_max (Num 1)
                (add (sub band_n (paddingInner s))
                     (mul (paddingOuter s) (Num (Qc_of_Z 2))))).

Definition band_start : number :=
  add band_start0
      (mul (sub (sub band_stop band_start0)
                (mul band_step (sub band_n (paddingInner s))))
           (align s)).

Definition bandwidth : number :=
  mul band_step (sub (Num 1) (paddingInner s)).

Definition band_values : list number :=
  let values :=
    map (fun i => add band_start (mul band_step (Num (Qc_of_nat i))))
        (seq 0 (List.length (band_domain s))) in
  if band_reverse then rev values else values.
End Rescale.

Fixpoint index_of (d : string) (domain : list string) : option nat :=
  match domain with
  | [] => None
  | x :: rest =>
      if String.eqb x d then Some 0%nat
      else option_map S (index_of d rest)
  end.

(** Calling the band scale: the start of the band of [d], [undefined]
    for a value outside the domain. *)
Definition band_apply (s : band) (d : string) : value :=
  match index_of d (band_domain s) with
  | None => Undefined
  | Some i =>
      match nth_error (band_values s)
                      (Nat.modulo i (List.length (band_values s))) with
      | Some x => Number x
      | None => Undefined
      end
  end.

(** [d3.min(values, valueof)], the mirror image of [d3.max]. *)
Definition min {A : Type} (values : list A) (valueof : A -> value) : value :=
  fold_left
    (fun min v =>
       let value := valueof v in
       if neq_null value && (gt min value || (is_undefined min && ge value value))
       then value else min)
    values Undefined.

(** [d3.range(start, stop)], with the default step 1: the count is
    [Math.max(0, Math.ceil((stop - start) / step)) | 0], and
    [new Array(n)] throws a RangeError for a negative count, which the
    wrap of [| 0] can produce: that case is [None]. *)
Definition range (start stop : value) : option (list number) :=
  let start := ToNumber start in
  let stop := ToNumber stop in
  let step := Num 1 in
  let n := ToInt32 (Math_max (Num 0) (Math_ceil (div (sub stop start) step))) in
  if (n <? 0)%Z then None
  else Some (map (fun i => add start (mul (Num (Qc_of_nat i)) step))
                 (seq 0 (Z.to_nat n))).

End D3.

(* ================================================================== *)
(** * The script *)
(* ================================================================== *)

Module Row.
(** A row of [movies.csv] as [d3.csv] delivers it: every column is text. *)
Record t : Type :=
  { gross : string;
    imdb_score : string;
    title_year : string;
    director_name : string }.
End Row.

Module Movie.
(** The fields the charts read once the rows are reformatted. *)
Record t : Type :=
  { gross : value;
    score : value;
    year : value;
    director : string }.
End Movie.

Module LinePoint.
(** [{ year, gross }] *)
Record t : Type := { year : value; gross : value }.
End LinePoint.

Module Bar.
(** [{ director, score }] *)
Record t : Type := { director : string; score : value }.
End Bar.

Module Main.

Definition margin_top : Qc := Qc_of_Z 50.
Definition margin_right : Qc := Qc_of_Z 30.
Definition margin_bottom : Qc := Qc_of_Z 60.
Definition margin_left : Qc := Qc_of_Z 70.
Definition width : Qc := Qc_of_Z 800 - margin_left - margin_right.
Definition height : Qc := Qc_of_Z 400 - margin_top - margin_bottom.

(** 2.a: the body of [data.forEach]; unary plus on text is
    [StringToNumber]. *)
Definition reformat (d : Row.t) : Movie.t :=
  {| Movie.gross := Number (StringToNumber (Row.gross d));
     Movie.score := Number (StringToNumber (Row.imdb_score d));
     Movie.year := Number (StringToNumber (Row.title_year d));
     Movie.director := Row.director_name d |}.

Definition load (data : list Row.t) : list Movie.t := map reformat data.

(** 3.a *)
Definition lineCleanData (data : list Movie.t) : list Movie.t :=
  filter
    (fun d =>
       neq_null (Movie.gross d)
       && neq_null (Movie.year d)
       && ge (Movie.year d) (Number (Num (Qc_of_Z 2010))))
    data.

(** 3.b *)
Definition sumGrossByYear (data : list Movie.t) : list (value * number) :=
  D3.rollup same_value_zero (lineCleanData data)
            (fun v => D3.sum v Movie.gross)
            Movie.year.

(** 3.c: [Array.from] with its mapping function, then the sort. *)
Definition lineEntries (data : list Movie.t) : list LinePoint.t :=
  map (fun yg => {| LinePoint.year := fst yg;
                    LinePoint.gross := Number (snd yg) |})
      (sumGrossByYear data).

Definition lineData (data : list Movie.t) : list LinePoint.t :=
  sort (fun a b => minus (LinePoint.year a) (LinePoint.year b))
       (lineEntries data).

(** 4.a, 4.b *)
Definition xYear (data : list Movie.t) : D3.linear :=
  D3.scaleLinear (Number (Num (Qc_of_Z 2010)),
                  D3.max (lineData data) LinePoint.year)
                 (Num 0, Num width).

Definition yGross (data : list Movie.t) : D3.linear :=
  D3.scaleLinear (Number (Num 0), D3.max (lineData data) LinePoint.gross)
                 (Num height, Num 0).

(** Bar chart: the filter, the rollup, the top six. *)
Definition barCleanData (data : list Movie.t) : list Movie.t :=
  filter
    (fun d =>
       negb (String.eqb (Movie.director d) EmptyString)
       && neq_null (Movie.score d))
    data.

Definition barMap (data : list Movie.t) : list (string * value) :=
  D3.rollup String.eqb (barCleanData data)
            (fun v => D3.mean v Movie.score)
            Movie.director.

(** [Array.from] with its mapping function, then the sort and the slice. *)
Definition barEntries (data : list Movie.t) : list Bar.t :=
  map (fun ds => {| Bar.director := fst ds; Bar.score := snd ds |})
      (barMap data).

Definition barFinalArr (data : list Movie.t) : list Bar.t :=
  slice0 6
    (sort (fun a b => minus (Bar.score b) (Bar.score a)) (barEntries data)).

Definition barXScale (data : list Movie.t) : D3.band :=
  D3.scaleBand (map Bar.director (barFinalArr data))
               (Num 0, Num width)
               (Num (Q2Qc (1 # 10))).

Definition barYScale (data : list Movie.t) : D3.linear :=
  D3.scaleLinear (Number (Num 0), D3.max (barFinalArr data) Bar.score)
                 (Num height, Num 0).

(** 4.c: the accessors of the line generator. *)
Definition line_x (data : list Movie.t) (d : LinePoint.t) : value :=
  D3.linear_apply (xYear data) (LinePoint.year d).

Definition line_y (data : list Movie.t) (d : LinePoint.t) : value :=
  D3.linear_apply (yGross data) (LinePoint.gross d).

(** 6.a: the tick values of the year axis. *)
Definition tickValues (data : list Movie.t) : option (list number) :=
  D3.range (D3.min (lineData data) LinePoint.year)
           (Number (plus (D3.max (lineData data) LinePoint.year)
                         (Number (Num 1)))).

(** The attributes of the rectangles of the bar chart. *)
Definition rect_x (data : list Movie.t) (d : Bar.t) : value :=
  D3.band_apply (barXScale data) (Bar.director d).

Definition rect_y (data : list Movie.t) (d : Bar.t) : value :=
  D3.linear_apply (barYScale data) (Bar.score d).

Definition rect_width (data : list Movie.t) : number :=
  D3.bandwidth (barXScale data).

Definition rect_height (data : list Movie.t) (d : Bar.t) : number :=
  minus (Number (Num height)) (rect_y data d).

End Main.

(* ================================================================== *)
(** * Vocabulary of the statements *)
(* ================================================================== *)


(** The keys of a sequence in the order of their first occurrence: the
    iteration order of a [Map] filled by one pass over the sequence. *)
Definition first_keys {K : Type} (key_eqb : K -> K -> bool) (l : list K)
  : list K :=
  fold_left
    (fun seen k =>
       if existsb (fun k' => key_eqb k' k) seen then seen else seen ++ [k])
    l [].

Definition Qc_sum (l : list Qc) : Qc := fold_right Qcplus 0 l.

(** The rational a value stands for; a missing or NaN value stands for
    nothing and counts as 0 in a sum, as [d3.sum] has it. *)
Definition amount (v : value) : Qc :=
  match v with
  | Number (Num q) => q
  | _ => 0
  end.

(** The records of the analysis window: gross present, year present and
    at least 2010. *)
Definition in_window (d : Movie.t) : bool :=
  match Movie.gross d, Movie.year d with
  | Number _, Number (Num y) => Qc_leb (Qc_of_Z 2010) y
  | _, _ => false
  end.


(** The year conditions of filter 3.a, without the test on gross. *)
Definition year_in_range (d : Movie.t) : bool :=
  neq_null (Movie.year d) && ge (Movie.year d) (Number (Num (Qc_of_Z 2010))).

(** The rationals among a sequence of values. *)
Definition numerics (l : list value) : list Qc :=
  flat_map (fun v => match v with Number (Num q) => [q] | _ => [] end) l.

(** The arithmetic mean, [undefined] for no number at all. *)
Definition average (qs : list Qc) : value :=
  match qs with
  | [] => Undefined
  | _ :: _ => Number (Num (Qc_sum qs / Qc_of_nat (List.length qs)))
  end.

(** The scores of a director that are numbers. *)
Definition valid_scores (data : list Movie.t) (director : string) : list Qc :=
  numerics (map Movie.score
                (filter (fun d => String.eqb director (Movie.director d)) data)).

(** Non-increasing scores, read with JavaScript's [>=]. *)
Definition non_increasing (bars : list Bar.t) : Prop :=
  StronglySorted (fun a b => ge (Bar.score a) (Bar.score b) = true) bars.

(** A missing marker: [undefined], [null] or NaN. *)
Definition missing (v : value) : bool :=
  match v with
  | Undefined | Null | Number NaN => true
  | Number (Num _) => false
  end.


(** The group of [k] once [values] went through the loop of [d3.rollup]. *)
Definition members {A K : Type} (key_eqb : K -> K -> bool) (keyof : A -> K)
           (values : list A) (k : K) : K * list A :=
  (k, filter (fun v => key_eqb k (keyof v)) values).

Definition half : Qc := Q2Qc (1 # 2).

(** ** Sample data *)

Definition row (gross imdb_score title_year director_name : string) : Row.t :=
  {| Row.gross := gross;
     Row.imdb_score := imdb_score;
     Row.title_year := title_year;
     Row.director_name := director_name |}.

Definition movie (gross score year : value) (director : string) : Movie.t :=
  {| Movie.gross := gross;
     Movie.score := score;
     Movie.year := year;
     Movie.director := director |}.

Definition num (z : Z) : value := Number (Num (Qc_of_Z z)).

(** Two rows; the score of the first is not a number. *)
Definition unscored_rows : list Row.t :=
  [ row "100" "N/A" "2012" "A"; row "50" "7.5" "2012" "B" ].

(** Two directors with the same mean, B met first. *)
Definition tied_movies : list Movie.t :=
  [ movie (num 10) (num 7) (num 2012) "B";
    movie (num 20) (num 6) (num 2013) "A";
    movie (num 30) (num 8) (num 2014) "A" ].

(** One film, released in 2010. *)
Definition only_2010 : list Movie.t :=
  [ movie (num 100) (num 7) (num 2010) "A" ].

(** Closed equations between rationals, or between values that hold some. *)
Ltac canon :=
  vm_compute;
  repeat first [ reflexivity | apply Qc_is_canon; reflexivity | f_equal ].

(** ** Vocabulary of the further properties *)

(** The gross of the window records of one year. *)
Definition year_total (data : list Movie.t) (y : value) : Qc :=
  Qc_sum (map (fun d => amount (Movie.gross d))
              (filter (fun d => same_value_zero y (Movie.year d))
                      (filter in_window data))).

(** The body of the loop of [d3.max]. *)
Definition max_step {A : Type} (valueof : A -> value) (max : value) (v : A)
  : value :=
  let value := valueof v in
  if neq_null value && (lt max value || (is_undefined max && ge value value))
  then value else max.

(** Ten directors, one record each, with the scores 1 to 10. *)
Definition ten_directors : list Movie.t :=
  [ movie Null (num 1) Null "a"; movie Null (num 2) Null "b";
    movie Null (num 3) Null "c"; movie Null (num 4) Null "d";
    movie Null (num 5) Null "e"; movie Null (num 6) Null "f";
    movie Null (num 7) Null "g"; movie Null (num 8) Null "h";
    movie Null (num 9) Null "i"; movie Null (num 10) Null "j" ].

Definition tenth : Qc := Q2Qc (1 # 10).

(** The body of the loop of [d3.min]. *)
Definition min_step {A : Type} (valueof : A -> value) (min : value) (v : A)
  : value :=
  let value := valueof v in
  if neq_null value && (gt min value || (is_undefined min && ge value value))
  then value else min.

(** The integers from [a] on, [n] of them, as numbers. *)
Definition integers_from (a : Z) (n : nat) : list number :=
  map (fun i => Num (Qc_of_Z (a + Z.of_nat i))) (seq 0 n).

(* ================================================================== *)
(** * Facts: rationals and JavaScript values *)
(* ================================================================== *)

Lemma Qc_leb_le (x y : Qc) : Qc_leb x y = true <-> x <= y.
Proof. unfold Qc_leb, Qcle. apply Qle_bool_iff. Qed.

Lemma Qc_leb_gt (x y : Qc) : Qc_leb x y = false <-> y < x.
Proof.
  split; intros H.
  - apply Qcnot_le_lt. intros Hle. apply Qc_leb_le in Hle. congruence.
  - destruct (Qc_leb x y) eqn:E; [ | reflexivity ].
    apply Qc_leb_le in E. exfalso. exact (Qcle_not_lt _ _ E H).
Qed.

Lemma Qc_ltb_lt (x y : Qc) : Qc_ltb x y = true <-> x < y.
Proof.
  unfold Qc_ltb. fold (Qc_leb y x).
  rewrite negb_true_iff. apply Qc_leb_gt.
Qed.

Lemma Qc_eq_bool_eq (x y : Qc) : Qc_eq_bool x y = true <-> x = y.
Proof.
  split; [ apply Qc_eq_bool_correct | intros -> ].
  unfold Qc_eq_bool. destruct (Qc_eq_dec y y); congruence.
Qed.

Lemma Qc_eq_bool_neq (x y : Qc) : Qc_eq_bool x y = false <-> x <> y.
Proof.
  rewrite <- Qc_eq_bool_eq. destruct (Qc_eq_bool x y); split; congruence.
Qed.

Lemma Qc_of_nat_S_pos (n : nat) : 0 < Qc_of_nat (S n).
Proof.
  unfold Qc_of_nat, Qc_of_Z, Qclt. cbn [this Q2Qc].
  rewrite (Qred_correct (inject_Z (Z.of_nat (S n)))).
  unfold Qlt. cbn -[Z.of_nat]. lia.
Qed.

Lemma Qc_of_nat_S_nonzero (n : nat) : Qc_eq_bool (Qc_of_nat (S n)) 0 = false.
Proof.
  apply Qc_eq_bool_neq. intros H. pose proof (Qc_of_nat_S_pos n) as P.
  rewrite H in P. exact (Qclt_not_eq _ _ P eq_refl).
Qed.

Lemma number_eqb_eq (x y : number) : number_eqb x y = true <-> x = y.
Proof.
  destruct x, y; cbn; try (split; congruence).
  rewrite Qc_eq_bool_eq. split; congruence.
Qed.

Lemma same_value_zero_eq (x y : value) : same_value_zero x y = true <-> x = y.
Proof.
  destruct x, y; cbn; try (split; congruence).
  rewrite number_eqb_eq. split; congruence.
Qed.

(** Adding a falsy number changes no sum: the truthiness test of [d3.sum]
    only ever skips NaN. *)
Lemma add_if_truthy (s : Qc) (n : number) :
  (if truthy n then add (Num s) n else Num s)
  = Num (s + match n with Num q => q | NaN => 0 end).
Proof.
  destruct n as [ | q ]; cbn.
  - f_equal. ring.
  - destruct (Qc_eq_bool q 0) eqn:E; cbn; [ | reflexivity ].
    apply Qc_eq_bool_eq in E. subst q. f_equal. ring.
Qed.

(* ================================================================== *)
(** * Facts: sums of rationals *)
(* ================================================================== *)

Lemma Qc_sum_cons (x : Qc) (l : list Qc) : Qc_sum (x :: l) = x + Qc_sum l.
Proof. reflexivity. Qed.


(* ================================================================== *)
(** * Facts: order of occurrence *)
(* ================================================================== *)








(* ================================================================== *)
(** * Facts: [d3.rollup] *)
(* ================================================================== *)

Lemma filter_none {A : Type} (p : A -> bool) (l : list A) :
  (forall x, In x l -> p x = false) -> filter p l = [].
Proof.
  induction l as [ | x l IH ]; intros H; [ reflexivity | ].
  cbn. rewrite (H x (or_introl eq_refl)). apply IH.
  intros y Hy. apply H. right. exact Hy.
Qed.

Section RollupFacts.
Context {A K : Type} (key_eqb : K -> K -> bool).
Hypothesis key_eqb_eq : forall x y, key_eqb x y = true <-> x = y.

Lemma key_eqb_refl (k : K) : key_eqb k k = true.
Proof. apply key_eqb_eq. reflexivity. Qed.

Lemma seen_iff (k : K) (l : list K) :
  existsb (fun k' => key_eqb k' k) l = true <-> In k l.
Proof.
  rewrite existsb_exists. split.
  - intros (x & Hx & E). apply key_eqb_eq in E. subst. exact Hx.
  - intros H. exists k. split; [ exact H | apply key_eqb_refl ].
Qed.

Lemma first_keys_snoc (l : list K) (k : K) :
  first_keys key_eqb (l ++ [k])
  = if existsb (fun k' => key_eqb k' k) (first_keys key_eqb l)
    then first_keys key_eqb l
    else first_keys key_eqb l ++ [k].
Proof. unfold first_keys. rewrite fold_left_app. reflexivity. Qed.

Lemma first_keys_In (l : list K) (k : K) :
  In k (first_keys key_eqb l) <-> In k l.
Proof.
  induction l as [ | x l IH ] using rev_ind.
  - reflexivity.
  - rewrite first_keys_snoc.
    destruct (existsb _ (first_keys key_eqb l)) eqn:E.
    + apply seen_iff in E. rewrite IH, in_app_iff. cbn. split; [ tauto | ].
      intros [ H | [ <- | [] ] ]; [ exact H | apply IH, E ].
    + rewrite !in_app_iff, IH. reflexivity.
Qed.

Lemma first_keys_NoDup (l : list K) : NoDup (first_keys key_eqb l).
Proof.
  induction l as [ | x l IH ] using rev_ind.
  - constructor.
  - rewrite first_keys_snoc.
    destruct (existsb _ (first_keys key_eqb l)) eqn:E; [ exact IH | ].
    apply NoDup_app; [ exact IH | repeat constructor; intros [] | ].
    intros y Hy [ <- | [] ].
    apply seen_iff in Hy. congruence.
Qed.


Variable keyof : A -> K.

Lemma group_push_members (values : list A) (v : A) (ks : list K) :
  NoDup ks ->
  (existsb (fun k' => key_eqb k' (keyof v)) ks = false ->
   filter (fun v' => key_eqb (keyof v) (keyof v')) values = []) ->
  D3.group_push key_eqb (keyof v) v (map (members key_eqb keyof values) ks)
  = map (members key_eqb keyof (values ++ [v]))
        (if existsb (fun k' => key_eqb k' (keyof v)) ks then ks
         else ks ++ [keyof v]).
Proof.
  induction ks as [ | y ks IH ]; intros Hnd Hnew.
  - cbn. unfold members. rewrite filter_app, (Hnew eq_refl). cbn.
    rewrite key_eqb_refl. reflexivity.
  - inversion Hnd as [ | ? ? Hy Hnd' ]; subst. cbn.
    destruct (key_eqb y (keyof v)) eqn:E; cbn.
    + f_equal.
      * unfold members. rewrite filter_app. cbn. rewrite E. reflexivity.
      * apply map_ext_in. intros k Hk. unfold members.
        rewrite filter_app. cbn.
        destruct (key_eqb k (keyof v)) eqn:E'; [ | now rewrite app_nil_r ].
        apply key_eqb_eq in E, E'. congruence.
    + rewrite IH; [ | exact Hnd' | ].
      * destruct (existsb _ ks); cbn; f_equal;
          unfold members; rewrite filter_app; cbn; rewrite E;
          now rewrite app_nil_r.
      * intros Hs. apply Hnew. cbn. rewrite E, Hs. reflexivity.
Qed.

(** [d3.group]: one entry per key, in the order of first occurrence, each
    holding the values of that key in their order. *)
Lemma group_spec (values : list A) :
  D3.group key_eqb values keyof
  = map (members key_eqb keyof values) (first_keys key_eqb (map keyof values)).
Proof.
  induction values as [ | v values IH ] using rev_ind.
  - reflexivity.
  - unfold D3.group in *. rewrite fold_left_app. cbn. rewrite IH.
    rewrite map_app. cbn [map]. rewrite first_keys_snoc.
    apply group_push_members.
    + apply first_keys_NoDup.
    + intros Hs. apply filter_none. intros x Hx.
      destruct (key_eqb (keyof v) (keyof x)) eqn:E; [ | reflexivity ].
      apply key_eqb_eq in E.
      assert (In (keyof v) (first_keys key_eqb (map keyof values))) as Hin.
      { apply first_keys_In. rewrite E. apply in_map, Hx. }
      apply seen_iff in Hin. congruence.
Qed.
End RollupFacts.

(* ================================================================== *)
(** * Facts: [Array.prototype.sort] *)
(* ================================================================== *)

Section SortFacts.
Context {A : Type} (comparator : A -> A -> number).

Lemma insert_perm (x : A) (l : list A) :
  Permutation (insert comparator x l) (x :: l).
Proof.
  induction l as [ | y l IH ]; cbn.
  - reflexivity.
  - destruct (sort_le comparator x y).
    + reflexivity.
    + rewrite IH. apply perm_swap.
Qed.

Lemma sort_perm (l : list A) : Permutation (sort comparator l) l.
Proof.
  induction l as [ | x l IH ]; cbn.
  - reflexivity.
  - rewrite insert_perm. apply perm_skip, IH.
Qed.

Lemma sort_length (l : list A) : List.length (sort comparator l) = List.length l.
Proof. apply Permutation_length, sort_perm. Qed.

(** *** Order, for a comparator that compares rational keys *)
Section Sorted.
Variable P : A -> Prop.
Variable key : A -> Qc.
Hypothesis le_key :
  forall a b, P a -> P b -> (sort_le comparator a b = true <-> key a <= key b).

Let by_key (a b : A) : Prop := key a <= key b.

Lemma insert_sorted (x : A) (l : list A) :
  P x -> Forall P l ->
  StronglySorted by_key l -> StronglySorted by_key (insert comparator x l).
Proof.
  intros Px. induction l as [ | y l IH ]; intros Pl Hs; cbn.
  - repeat constructor.
  - inversion Pl as [ | ? ? Py Pl' ]; subst.
    inversion Hs as [ | ? ? Hs' Hy ]; subst.
    destruct (sort_le comparator x y) eqn:E.
    + apply (le_key x y Px Py) in E.
      constructor; [ exact Hs | ].
      constructor; [ exact E | ].
      eapply Forall_impl; [ | exact Hy ].
      intros z Hz. unfold by_key in *. eapply Qcle_trans; eauto.
    + assert (key y <= key x) as Hyx.
      { apply Qclt_le_weak, Qcnot_le_lt. intros H.
        apply (le_key x y Px Py) in H. congruence. }
      constructor; [ apply IH; assumption | ].
      apply Forall_forall. intros z Hz.
      apply (Permutation_in _ (insert_perm x l)) in Hz.
      destruct Hz as [ <- | Hz ]; [ exact Hyx | ].
      rewrite Forall_forall in Hy. apply Hy, Hz.
Qed.

Lemma sort_sorted (l : list A) :
  Forall P l -> StronglySorted by_key (sort comparator l).
Proof.
  induction l as [ | x l IH ]; intros Pl; cbn.
  - constructor.
  - inversion Pl as [ | ? ? Px Pl' ]; subst.
    apply insert_sorted; [ exact Px | | apply IH, Pl' ].
    apply Forall_forall. intros z Hz.
    apply (Permutation_in _ (sort_perm l)) in Hz.
    rewrite Forall_forall in Pl'. apply Pl', Hz.
Qed.
End Sorted.

(** *** Stability, for any comparator *)


End SortFacts.

(** A sorted sequence without two equal marks is strictly sorted. *)
Lemma StronglySorted_strict {A B : Type} (R R' : A -> A -> Prop) (g : A -> B)
      (P : A -> Prop) (l : list A) :
  (forall a b, P a -> P b -> R a b -> g a <> g b -> R' a b) ->
  Forall P l -> NoDup (map g l) ->
  StronglySorted R l -> StronglySorted R' l.
Proof.
  intros Hstrict. induction l as [ | x l IH ]; intros Pl Hnd Hs.
  - constructor.
  - inversion Pl as [ | ? ? Px Pl' ]; subst.
    inversion Hnd as [ | ? ? Hx Hnd' ]; subst.
    inversion Hs as [ | ? ? Hs' Hall ]; subst.
    constructor; [ apply IH; assumption | ].
    rewrite Forall_forall in *. intros y Hy.
    apply Hstrict; auto.
    intros E. apply Hx. rewrite E. apply in_map, Hy.
Qed.

(* ================================================================== *)
(** * Facts: [d3.sum] and sums by group *)
(* ================================================================== *)

Lemma sum_fold {A : Type} (valueof : A -> value) (l : list A) (s : Qc) :
  fold_left
    (fun sum v =>
       let value := ToNumber (valueof v) in
       if truthy value then add sum value else sum)
    l (Num s)
  = Num (s + Qc_sum (map (fun v => match ToNumber (valueof v) with
                                   | Num q => q
                                   | NaN => 0
                                   end) l)).
Proof.
  revert s. induction l as [ | x l IH ]; intros s.
  - cbn. f_equal. ring.
  - cbn [fold_left map]. cbv zeta. rewrite add_if_truthy, IH, Qc_sum_cons.
    f_equal. ring.
Qed.

Lemma sum_spec {A : Type} (valueof : A -> value) (l : list A) :
  (forall v, In v l -> neq_null (valueof v) = true) ->
  D3.sum l valueof = Num (Qc_sum (map (fun v => amount (valueof v)) l)).
Proof.
  intros H. unfold D3.sum. rewrite sum_fold. f_equal.
  rewrite Qcplus_0_l. f_equal. apply map_ext_in. intros v Hv.
  specialize (H v Hv). destruct (valueof v) as [ | | [ | q ] ];
    try discriminate; reflexivity.
Qed.

Lemma Qc_sum_zero {A : Type} (l : list A) : Qc_sum (map (fun _ => 0) l) = 0.
Proof.
  induction l as [ | x l IH ]; [ reflexivity | ].
  cbn [map]. rewrite Qc_sum_cons, IH. ring.
Qed.


Section SumByGroup.
Context {A K : Type} (key_eqb : K -> K -> bool).
Hypothesis key_eqb_eq : forall x y, key_eqb x y = true <-> x = y.
Variable keyof : A -> K.
Variable f : A -> Qc.


End SumByGroup.

(* ================================================================== *)
(** * The line chart series *)
(* ================================================================== *)

Import Main.

Lemma lineCleanData_in_window (data : list Movie.t) :
  lineCleanData data = filter in_window data.
Proof.
  unfold lineCleanData. apply filter_ext. intros d. unfold in_window.
  destruct (Movie.gross d) as [ | | g ]; cbn; try reflexivity.
  destruct (Movie.year d) as [ | | [ | y ] ]; reflexivity.
Qed.

Lemma in_window_year (d : Movie.t) :
  in_window d = true ->
  exists y, Movie.year d = Number (Num y) /\ Qc_of_Z 2010 <= y.
Proof.
  unfold in_window. destruct (Movie.gross d); try discriminate.
  destruct (Movie.year d) as [ | | [ | y ] ]; try discriminate.
  intros H. exists y. split; [ reflexivity | apply Qc_leb_le, H ].
Qed.

Lemma in_window_gross (d : Movie.t) :
  in_window d = true -> neq_null (Movie.gross d) = true.
Proof.
  unfold in_window. destruct (Movie.gross d); try discriminate. reflexivity.
Qed.

(** The entries of [sumGrossByYear]: the years in the order they are met,
    each with the sum of its records. *)
Lemma sumGrossByYear_spec (data : list Movie.t) :
  sumGrossByYear data
  = map (fun y =>
           (y, Num (Qc_sum (map (fun d => amount (Movie.gross d))
                                (filter (fun d => same_value_zero y (Movie.year d))
                                        (lineCleanData data))))))
        (first_keys same_value_zero (map Movie.year (lineCleanData data))).
Proof.
  unfold sumGrossByYear, D3.rollup.
  rewrite (group_spec same_value_zero same_value_zero_eq), map_map.
  apply map_ext. intros y. cbn. f_equal. apply sum_spec.
  intros d Hd. apply filter_In in Hd as [ Hd _ ].
  rewrite lineCleanData_in_window in Hd. apply filter_In in Hd as [ _ Hd ].
  apply in_window_gross, Hd.
Qed.


Lemma lineData_perm (data : list Movie.t) :
  Permutation (lineData data) (lineEntries data).
Proof. apply sort_perm. Qed.

Lemma lineEntries_years (data : list Movie.t) :
  map LinePoint.year (lineEntries data)
  = first_keys same_value_zero (map Movie.year (lineCleanData data)).
Proof.
  unfold lineEntries. rewrite sumGrossByYear_spec, !map_map. cbn.
  apply map_id.
Qed.


Lemma lineEntries_numeric_years (data : list Movie.t) :
  Forall (fun p => exists y, LinePoint.year p = Number (Num y)) (lineEntries data).
Proof.
  apply Forall_forall. intros p Hp.
  assert (In (LinePoint.year p) (map LinePoint.year (lineEntries data))) as H
    by (apply in_map, Hp).
  rewrite lineEntries_years in H.
  apply (proj1 (first_keys_In same_value_zero same_value_zero_eq _ _)) in H.
  apply in_map_iff in H as (d & Hd & Hin).
  rewrite lineCleanData_in_window in Hin. apply filter_In in Hin as [ _ Hw ].
  apply in_window_year in Hw as (y & Hy & _).
  exists y. congruence.
Qed.

Lemma Qc_minus_le_0 (x y : Qc) : x - y <= 0 <-> x <= y.
Proof.
  rewrite (Qcle_minus_iff x y), (Qcle_minus_iff (x - y) 0).
  replace (0 + - (x - y)) with (y + - x) by ring. reflexivity.
Qed.

(** The comparator of 3.c orders the points by the rational their year
    stands for. *)
Lemma by_year_le (a b : LinePoint.t) :
  (exists y, LinePoint.year a = Number (Num y)) ->
  (exists y, LinePoint.year b = Number (Num y)) ->
  sort_le (fun a b => minus (LinePoint.year a) (LinePoint.year b)) a b = true
  <-> amount (LinePoint.year a) <= amount (LinePoint.year b).
Proof.
  intros (ya & Ha) (yb & Hb). unfold sort_le, minus. rewrite Ha, Hb. cbn.
  rewrite Qc_leb_le. apply Qc_minus_le_0.
Qed.


(** C4. The years of the yearly series are strictly increasing; no year
    occurs twice, and the years are those of the retained records. *)
Theorem lineData_years_increasing (data : list Movie.t) :
  StronglySorted
    (fun a b => Js.lt (LinePoint.year a) (LinePoint.year b) = true)
    (lineData data)
  /\ NoDup (map LinePoint.year (lineData data))
  /\ (forall y, In y (map LinePoint.year (lineData data))
                <-> In y (map Movie.year (lineCleanData data))).
Proof.
  assert (Permutation (map LinePoint.year (lineData data))
                      (first_keys same_value_zero
                                  (map Movie.year (lineCleanData data)))) as Hperm.
  { rewrite <- lineEntries_years. apply Permutation_map, lineData_perm. }
  assert (NoDup (map LinePoint.year (lineData data))) as Hnd.
  { eapply Permutation_NoDup; [ symmetry; exact Hperm | ].
    apply first_keys_NoDup, same_value_zero_eq. }
  assert (Forall (fun p => exists y, LinePoint.year p = Number (Num y))
                 (lineData data)) as Hnum.
  { eapply Permutation_Forall; [ symmetry; apply lineData_perm | ].
    apply lineEntries_numeric_years. }
  split; [ | split; [ exact Hnd | ] ].
  - eapply StronglySorted_strict with (g := LinePoint.year);
      [ | exact Hnum | exact Hnd | ].
    2: { unfold lineData.
         apply (sort_sorted _ _ (fun p => amount (LinePoint.year p)) by_year_le).
         apply lineEntries_numeric_years. }
    intros a b (ya & Ha) (yb & Hb) Hle Hne. cbn in Hle.
    rewrite Ha, Hb in *. cbn in *. apply Qc_ltb_lt.
    apply Qcle_lt_or_eq in Hle as [ Hlt | -> ]; [ exact Hlt | congruence ].
  - intros y. split; intros H.
    + apply (Permutation_in _ Hperm) in H.
      apply (proj1 (first_keys_In same_value_zero same_value_zero_eq _ _)), H.
    + apply (Permutation_in _ (Permutation_sym Hperm)).
      apply (proj2 (first_keys_In same_value_zero same_value_zero_eq _ _)), H.
Qed.

(** C9. Once loaded, no record has a null gross, so the gross test of
    filter 3.a removes nothing: the filter is the test on the year. *)
Theorem lineCleanData_load (rows : list Row.t) :
  Forall (fun d => exists n, Movie.gross d = Number n) (load rows)
  /\ lineCleanData (load rows) = filter year_in_range (load rows).
Proof.
  split.
  - apply Forall_forall. intros d Hd. apply in_map_iff in Hd as (r & <- & _).
    eexists. reflexivity.
  - unfold lineCleanData, load. induction rows as [ | r rows IH ].
    + reflexivity.
    + cbn [map filter]. rewrite IH. reflexivity.
Qed.

(* ================================================================== *)
(** * The bar chart series *)
(* ================================================================== *)

Lemma mean_fold {A : Type} (valueof : A -> value) (l : list A) (c : nat) (s : Qc) :
  fold_left (D3.mean_step valueof) l (c, Num s)
  = ((c + List.length (numerics (map valueof l)))%nat,
     Num (s + Qc_sum (numerics (map valueof l)))).
Proof.
  revert c s. induction l as [ | x l IH ]; intros c s.
  - cbn. f_equal; [ lia | f_equal; ring ].
  - cbn [fold_left map]. unfold D3.mean_step at 2.
    destruct (valueof x) as [ | | [ | q ] ] eqn:E.
    1-3: cbn [neq_null andb ToNumber number_ge]; rewrite IH; reflexivity.
    cbn [neq_null andb ToNumber number_ge add].
    assert (Qc_leb q q = true) as -> by (apply Qc_leb_le, Qcle_refl).
    rewrite IH.
    change (numerics (Number (Num q) :: map valueof l))
      with (q :: numerics (map valueof l)).
    cbn [List.length]. rewrite Qc_sum_cons.
    f_equal; [ lia | f_equal; ring ].
Qed.

Lemma mean_spec {A : Type} (valueof : A -> value) (l : list A) :
  D3.mean l valueof = average (numerics (map valueof l)).
Proof.
  unfold D3.mean. rewrite mean_fold. cbn [Nat.add].
  destruct (numerics (map valueof l)) as [ | q qs ] eqn:E; [ reflexivity | ].
  cbn [List.length average]. unfold div. rewrite Qc_of_nat_S_nonzero.
  rewrite Qcplus_0_l. reflexivity.
Qed.

Lemma average_cases (qs : list Qc) :
  average qs = Undefined \/ exists q, average qs = Number (Num q).
Proof.
  destruct qs; [ left; reflexivity | right; eexists; reflexivity ].
Qed.

(** The entries of [barMap]: the directors in the order they are met, each
    with the mean of the scores of its records that are numbers. *)
Lemma barMap_spec (data : list Movie.t) :
  barMap data
  = map (fun dir => (dir, average (valid_scores (barCleanData data) dir)))
        (first_keys String.eqb (map Movie.director (barCleanData data))).
Proof.
  unfold barMap, D3.rollup.
  rewrite (group_spec String.eqb String.eqb_eq), map_map.
  apply map_ext. intros dir. cbn. f_equal. apply mean_spec.
Qed.

(** The filter of the bar chart removes no score that is a number. *)
Lemma valid_scores_barCleanData (data : list Movie.t) (dir : string) :
  dir <> EmptyString ->
  valid_scores (barCleanData data) dir = valid_scores data dir.
Proof.
  intros Hdir. unfold valid_scores, barCleanData.
  induction data as [ | d data IH ]; [ reflexivity | ].
  cbn [filter].
  destruct (String.eqb dir (Movie.director d)) eqn:E.
  - apply String.eqb_eq in E.
    assert (String.eqb (Movie.director d) EmptyString = false) as ->.
    { apply String.eqb_neq. congruence. }
    cbn [negb andb].
    destruct (Movie.score d) as [ | | n ] eqn:Es; cbn [neq_null filter map].
    + rewrite IH, Es. reflexivity.
    + rewrite IH, Es. reflexivity.
    + rewrite <- E, String.eqb_refl. cbn [map]. unfold numerics in *.
      cbn [flat_map]. rewrite IH. reflexivity.
  - destruct (negb _ && _); cbn [filter]; [ rewrite E | ]; exact IH.
Qed.

Lemma barCleanData_director (data : list Movie.t) (d : Movie.t) :
  In d (barCleanData data) -> Movie.director d <> EmptyString.
Proof.
  intros H. apply filter_In in H as [ _ H ].
  apply andb_prop in H as [ H _ ]. apply negb_true_iff in H.
  apply String.eqb_neq, H.
Qed.

Lemma barEntries_directors (data : list Movie.t) :
  map Bar.director (barEntries data)
  = first_keys String.eqb (map Movie.director (barCleanData data)).
Proof.
  unfold barEntries. rewrite barMap_spec, !map_map. cbn. apply map_id.
Qed.

Lemma barEntries_scores (data : list Movie.t) :
  Forall (fun e => Bar.score e = Undefined \/ exists q, Bar.score e = Number (Num q))
         (barEntries data).
Proof.
  unfold barEntries. rewrite barMap_spec, map_map.
  apply Forall_forall. intros e He. apply in_map_iff in He as (dir & <- & _).
  cbn. apply average_cases.
Qed.

Lemma StronglySorted_weaken {A : Type} (R R' : A -> A -> Prop) (P : A -> Prop)
      (l : list A) :
  (forall a b, P a -> P b -> R a b -> R' a b) ->
  Forall P l -> StronglySorted R l -> StronglySorted R' l.
Proof.
  intros HR. induction l as [ | x l IH ]; intros Pl Hs.
  - constructor.
  - inversion Pl as [ | ? ? Px Pl' ]; subst.
    inversion Hs as [ | ? ? Hs' Hall ]; subst.
    constructor; [ apply IH; assumption | ].
    rewrite Forall_forall in *. intros y Hy. apply HR; auto.
Qed.

Lemma StronglySorted_firstn {A : Type} (R : A -> A -> Prop) (n : nat) (l : list A) :
  StronglySorted R l -> StronglySorted R (firstn n l).
Proof.
  revert l. induction n as [ | n IH ]; intros l Hs; [ constructor | ].
  destruct l as [ | x l ]; [ constructor | ].
  inversion Hs as [ | ? ? Hs' Hall ]; subst. cbn.
  constructor; [ apply IH, Hs' | ].
  rewrite Forall_forall in *. intros y Hy. apply Hall.
  rewrite <- (firstn_skipn n l). apply in_or_app. left. exact Hy.
Qed.

(** The comparator of the bar chart orders the entries by decreasing
    score, when the scores are numbers. *)
Lemma by_score_le (a b : Bar.t) :
  (exists q, Bar.score a = Number (Num q)) ->
  (exists q, Bar.score b = Number (Num q)) ->
  sort_le (fun a b => minus (Bar.score b) (Bar.score a)) a b = true
  <-> - amount (Bar.score a) <= - amount (Bar.score b).
Proof.
  intros (sa & Ha) (sb & Hb). unfold sort_le, minus. rewrite Ha, Hb. cbn.
  rewrite Qc_leb_le, Qc_minus_le_0. split; intros H.
  - apply Qcopp_le_compat, H.
  - apply Qcopp_le_compat in H. rewrite !Qcopp_involutive in H. exact H.
Qed.

(** The output never has more than six entries. *)
Lemma barFinalArr_length (data : list Movie.t) :
  (List.length (barFinalArr data) <= 6)%nat.
Proof. apply firstn_le_length. Qed.

(** With six entries or fewer, every director met is in the output. *)
Lemma barFinalArr_all (data : list Movie.t) :
  (List.length (barEntries data) <= 6)%nat ->
  Permutation (barFinalArr data) (barEntries data).
Proof.
  intros H. unfold barFinalArr, slice0.
  rewrite firstn_all2 by (rewrite sort_length; exact H).
  apply sort_perm.
Qed.

(** When every mean is a number, the output is in non-increasing order. *)
Lemma barFinalArr_sorted (data : list Movie.t) :
  Forall (fun e => Bar.score e <> Undefined) (barEntries data) ->
  non_increasing (barFinalArr data).
Proof.
  intros Hdef.
  assert (Forall (fun e => exists q, Bar.score e = Number (Num q))
                 (barEntries data)) as Hnum.
  { pose proof (barEntries_scores data) as Hs.
    rewrite Forall_forall in *. intros e He.
    destruct (Hs e He) as [ Hu | Hq ]; [ | exact Hq ].
    exfalso. exact (Hdef e He Hu). }
  unfold non_increasing, barFinalArr, slice0.
  apply StronglySorted_firstn.
  eapply StronglySorted_weaken
    with (P := fun e => exists q, Bar.score e = Number (Num q)).
  3: exact (sort_sorted _ _ (fun e => - amount (Bar.score e)) by_score_le _ Hnum).
  - intros a b (sa & Ha) (sb & Hb) Hle. rewrite Ha, Hb in *. cbn in *.
    apply Qc_leb_le. apply Qcopp_le_compat in Hle.
    rewrite !Qcopp_involutive in Hle. exact Hle.
  - eapply Permutation_Forall; [ symmetry; apply sort_perm | exact Hnum ].
Qed.

(** C3, at [unscored_rows].  The score of director A is NaN after loading
    and passes the filter; A gets an [undefined] mean and stays ahead of B.
    The output is not in non-increasing order, and would not be with its
    two entries swapped either. *)
Theorem barFinalArr_unscored_director :
  map Movie.score (load unscored_rows)
  = [ Number NaN; Number (Num (Q2Qc (15 # 2))) ]
  /\ map Bar.director (barFinalArr (load unscored_rows)) = [ "A"; "B" ]%string
  /\ map Bar.score (barFinalArr (load unscored_rows))
     = [ Undefined; Number (Num (Q2Qc (15 # 2))) ]
  /\ ~ non_increasing (barFinalArr (load unscored_rows))
  /\ ~ non_increasing (rev (barFinalArr (load unscored_rows))).
Proof.
  split; [ canon | split; [ reflexivity | split; [ canon | split ] ] ];
    unfold non_increasing; intros H.
  - remember (barFinalArr (load unscored_rows)) as out eqn:E.
    vm_compute in E. subst out.
    inversion H as [ | ? ? _ Hall ]; subst.
    inversion Hall as [ | ? ? Hge _ ]; subst.
    discriminate Hge.
  - remember (rev (barFinalArr (load unscored_rows))) as out eqn:E.
    vm_compute in E. subst out.
    inversion H as [ | ? ? _ Hall ]; subst.
    inversion Hall as [ | ? ? Hge _ ]; subst.
    discriminate Hge.
Qed.



(** C10. A score that is not numeric text is NaN once loaded and passes
    the filter of the bar chart.  The mean of a director is the mean of
    those of its scores that are numbers; it is [undefined] when there is
    none, and such a director is in the output when there are at most six
    directors. *)
Theorem barMap_means_valid_scores (rows : list Row.t) :
  let data := load rows in
  (forall r,
      In r rows ->
      Row.director_name r <> EmptyString ->
      StringToNumber (Row.imdb_score r) = NaN ->
      Movie.score (reformat r) = Number NaN
      /\ In (reformat r) (barCleanData data))
  /\ (forall director averageScore,
        In (director, averageScore) (barMap data) ->
        averageScore = average (valid_scores data director))
  /\ (forall director,
        In director (map Movie.director (barCleanData data)) ->
        valid_scores data director = [] ->
        (List.length (barMap data) <= 6)%nat ->
        In {| Bar.director := director; Bar.score := Undefined |}
           (barFinalArr data)).
Proof.
  intros data. split; [ | split ].
  - intros r Hr Hdir Hnan. unfold reformat at 1. cbn [Movie.score].
    rewrite Hnan. split; [ reflexivity | ].
    apply filter_In. split; [ apply in_map, Hr | ].
    unfold reformat. cbn [Movie.score Movie.director neq_null].
    rewrite andb_true_r. apply negb_true_iff.
    apply String.eqb_neq, Hdir.
  - intros dir avg H. rewrite barMap_spec in H.
    apply in_map_iff in H as (k & E & Hk). injection E as -> <-.
    rewrite valid_scores_barCleanData; [ reflexivity | ].
    apply (proj1 (first_keys_In String.eqb String.eqb_eq _ _)) in Hk.
    apply in_map_iff in Hk as (d & <- & Hd).
    eapply barCleanData_director, Hd.
  - intros dir Hdir Hnone Hlen.
    apply (Permutation_in _ (Permutation_sym (barFinalArr_all data ltac:(
      unfold barEntries; rewrite length_map; exact Hlen)))).
    unfold barEntries. rewrite barMap_spec.
    apply in_map_iff. exists (dir, Undefined). split; [ reflexivity | ].
    apply in_map_iff. exists dir. split.
    + rewrite valid_scores_barCleanData, Hnone; [ reflexivity | ].
      apply in_map_iff in Hdir as (d & <- & Hd).
      eapply barCleanData_director, Hd.
    + apply (proj2 (first_keys_In String.eqb String.eqb_eq _ _)), Hdir.
Qed.

(* ================================================================== *)
(** * The scales *)
(* ================================================================== *)

Lemma one_minus_half : 1 - half = half.
Proof. apply Qc_is_canon. reflexivity. Qed.

Lemma normalize_distinct (a b x : Qc) :
  a <> b ->
  D3.normalize (Num a) (Num b) (Num x) = Num ((x - a) / (b - a)).
Proof.
  intros Hab. unfold D3.normalize. cbn.
  assert (Qc_eq_bool (b - a) 0 = false) as E.
  { apply Qc_eq_bool_neq. intros H. apply Hab.
    replace b with ((b - a) + a) by ring. rewrite H. ring. }
  rewrite E. cbn. rewrite E. reflexivity.
Qed.

Lemma normalize_same (a : Qc) (x : number) :
  D3.normalize (Num a) (Num a) x = Num half.
Proof.
  unfold D3.normalize. cbn.
  assert (Qc_eq_bool (a - a) 0 = true) as E.
  { apply Qc_eq_bool_eq. ring. }
  rewrite E. reflexivity.
Qed.

(** C5. A linear scale whose domain bounds differ sends the first bound
    of the domain to the first bound of the range and the second to the
    second. *)
Theorem scaleLinear_endpoints (d0 d1 r0 r1 : Qc) :
  d0 <> d1 ->
  let s := D3.scaleLinear (Number (Num d0), Number (Num d1)) (Num r0, Num r1) in
  D3.linear_apply s (Number (Num d0)) = Number (Num r0)
  /\ D3.linear_apply s (Number (Num d1)) = Number (Num r1).
Proof.
  intros Hd s.
  assert (d1 - d0 <> 0) as Hn.
  { intros H. apply Hd. replace d1 with ((d1 - d0) + d0) by ring.
    rewrite H. ring. }
  assert (d0 - d1 <> 0) as Hn'.
  { intros H. apply Hd. replace d0 with ((d0 - d1) + d1) by ring.
    rewrite H. ring. }
  unfold s, D3.linear_apply, D3.scaleLinear, D3.bimap. cbn.
  destruct (Qc_ltb d1 d0); rewrite !normalize_distinct by congruence;
    unfold D3.interpolateNumber; cbn; split; do 2 f_equal; field; assumption.
Qed.

(** C5 on the domain [2010, 2016] and the range [0, width]. *)
Lemma scaleLinear_endpoints_witness :
  Qc_of_Z 2010 <> Qc_of_Z 2016
  /\ (let s := D3.scaleLinear (num 2010, num 2016) (Num 0, Num Main.width) in
      D3.linear_apply s (num 2010) = Number (Num 0)
      /\ D3.linear_apply s (num 2016) = Number (Num Main.width)).
Proof.
  assert (Qc_of_Z 2010 <> Qc_of_Z 2016) as H by discriminate.
  split; [ exact H | ].
  exact (scaleLinear_endpoints (Qc_of_Z 2010) (Qc_of_Z 2016) 0 Main.width H).
Defined.

(** C6, as stated, fails: when every record is of 2010 the domain of
    [xYear] is the single point 2010, and 2010 is sent to 350, the middle
    of the range, not to 0, its first bound. *)
Lemma xYear_single_point_not_rangeMin :
  D3.linear_domain (xYear only_2010) = (Num (Qc_of_Z 2010), Num (Qc_of_Z 2010))
  /\ D3.linear_range (xYear only_2010) = (Num 0, Num (Qc_of_Z 700))
  /\ D3.linear_apply (xYear only_2010) (num 2010) = num 350
  /\ num 350 <> Number (Num 0).
Proof.
  split; [ canon | split; [ canon | split; [ canon | discriminate ] ] ].
Qed.

(** C6, amended. On a single-point domain the linear scale divides by
    nothing and sends every number to the middle of its range. *)
Theorem scaleLinear_single_point (d r0 r1 x : Qc) :
  D3.linear_apply (D3.scaleLinear (Number (Num d), Number (Num d)) (Num r0, Num r1))
                  (Number (Num x))
  = Number (Num ((r0 + r1) * half)).
Proof.
  unfold D3.linear_apply, D3.scaleLinear, D3.bimap. cbn.
  destruct (Qc_ltb d d); rewrite normalize_same;
    unfold D3.interpolateNumber; cbn; rewrite one_minus_half;
    do 2 f_equal; ring.
Qed.

(** C7, as stated, fails: with no category the bandwidth of [barXScale]
    is 630, nine tenths of the width, not zero. *)
Lemma barXScale_empty_bandwidth_not_zero :
  barFinalArr [] = []
  /\ D3.bandwidth (barXScale []) = Num (Qc_of_Z 630)
  /\ Num (Qc_of_Z 630) <> Num 0.
Proof.
  split; [ reflexivity | split; [ canon | discriminate ] ].
Qed.

(** C7, amended. On no record both series are empty.  The scales built
    from them are defined everywhere: the linear ones answer [undefined]
    or NaN, the band scale answers [undefined] for every director, and
    its bandwidth is 630. *)
Theorem empty_input :
  lineData [] = []
  /\ barFinalArr [] = []
  /\ (forall x, D3.linear_apply (xYear []) x
                = if missing x then Undefined else Number NaN)
  /\ (forall x, D3.linear_apply (yGross []) x
                = if missing x then Undefined else Number NaN)
  /\ (forall x, D3.linear_apply (barYScale []) x
                = if missing x then Undefined else Number NaN)
  /\ (forall d, D3.band_apply (barXScale []) d = Undefined)
  /\ D3.bandwidth (barXScale []) = Num (Qc_of_Z 630).
Proof.
  repeat split; try reflexivity.
  1-3: intros [ | | [ | q ] ]; reflexivity.
  canon.
Qed.

(* ================================================================== *)
(** * The loader *)
(* ================================================================== *)




(* ================================================================== *)
(** * The scenarios of the specification *)
(* ================================================================== *)

(** Two records of 2010 and one of 2011 without gross: one point. *)
Example scenario_yearly_totals :
  lineData [ movie (num 100) Null (num 2010) "A";
             movie (num 50) Null (num 2010) "A";
             movie Null Null (num 2011) "A" ]
  = [ {| LinePoint.year := num 2010; LinePoint.gross := num 150 |} ].
Proof. canon. Qed.

(** The years come out in increasing order whatever the order of the
    records. *)
Example scenario_years_sorted :
  map LinePoint.year
      (lineData [ movie (num 5) Null (num 2014) "A";
                  movie (num 7) Null (num 2009) "A";
                  movie (num 1) Null (num 2011) "A";
                  movie (num 2) Null (num 2014) "A" ])
  = [ num 2011; num 2014 ].
Proof. canon. Qed.

(** Director A with 8 and 6, director B with 9: B first, then A with 7. *)
Example scenario_director_means :
  barFinalArr [ movie Null (num 8) Null "A";
                movie Null (num 6) Null "A";
                movie Null (num 9) Null "B" ]
  = [ {| Bar.director := "B"; Bar.score := num 9 |};
      {| Bar.director := "A"; Bar.score := num 7 |} ].
Proof. canon. Qed.

(** Ten directors: the six best, the other four dropped. *)
Example scenario_top_six :
  map Bar.director
      (barFinalArr [ movie Null (num 1) Null "a"; movie Null (num 2) Null "b";
                     movie Null (num 3) Null "c"; movie Null (num 4) Null "d";
                     movie Null (num 5) Null "e"; movie Null (num 6) Null "f";
                     movie Null (num 7) Null "g"; movie Null (num 8) Null "h";
                     movie Null (num 9) Null "i"; movie Null (num 10) Null "j" ])
  = [ "j"; "i"; "h"; "g"; "f"; "e" ]%string.
Proof. reflexivity. Qed.

(** Blank gross and blank score are loaded as 0: the record stays in both
    series, and the 0 weighs on the mean of its director. *)
Example scenario_blank_fields :
  let data := load [ row EmptyString EmptyString "2012" "A";
                     row "40" "8" "2012" "A" ] in
  lineData data = [ {| LinePoint.year := num 2012; LinePoint.gross := num 40 |} ]
  /\ barFinalArr data = [ {| Bar.director := "A"; Bar.score := num 4 |} ].
Proof. split; canon. Qed.

(* ================================================================== *)
(** * Further properties of the yearly series *)
(* ================================================================== *)




Lemma lineEntries_spec (data : list Movie.t) :
  lineEntries data
  = map (fun y => {| LinePoint.year := y;
                     LinePoint.gross := Number (Num (year_total data y)) |})
        (first_keys same_value_zero (map Movie.year (filter in_window data))).
Proof.
  unfold lineEntries. rewrite sumGrossByYear_spec, map_map.
  rewrite lineCleanData_in_window. reflexivity.
Qed.

Lemma lineData_strict (data : list Movie.t) :
  StronglySorted
    (fun a b => Js.lt (LinePoint.year a) (LinePoint.year b) = true)
    (lineData data).
Proof.
  assert (NoDup (map LinePoint.year (lineData data))) as Hnd.
  { eapply Permutation_NoDup.
    - symmetry. apply Permutation_map, lineData_perm.
    - rewrite lineEntries_years. apply first_keys_NoDup, same_value_zero_eq. }
  assert (Forall (fun p => exists y, LinePoint.year p = Number (Num y))
                 (lineData data)) as Hnum.
  { eapply Permutation_Forall; [ symmetry; apply lineData_perm | ].
    apply lineEntries_numeric_years. }
  eapply StronglySorted_strict with (g := LinePoint.year);
    [ | exact Hnum | exact Hnd | ].
  2: { unfold lineData.
       apply (sort_sorted _ _ (fun p => amount (LinePoint.year p)) by_year_le).
       apply lineEntries_numeric_years. }
  intros a b (ya & Ha) (yb & Hb) Hle Hne. cbn in Hle.
  rewrite Ha, Hb in *. cbn in *. apply Qc_ltb_lt.
  apply Qcle_lt_or_eq in Hle as [ Hlt | -> ]; [ exact Hlt | congruence ].
Qed.


Lemma lineData_Forall (P : LinePoint.t -> Prop) (data : list Movie.t) :
  Forall P (lineEntries data) -> Forall P (lineData data).
Proof.
  intros H. eapply Permutation_Forall; [ symmetry; apply lineData_perm | exact H ].
Qed.

(** The entries before the sort: year, lower bound, total. *)
Lemma lineEntries_points (data : list Movie.t) :
  Forall
    (fun p =>
       exists y,
         LinePoint.year p = Number (Num y)
         /\ Qc_of_Z 2010 <= y
         /\ LinePoint.gross p = Number (Num (year_total data (LinePoint.year p))))
    (lineEntries data).
Proof.
  rewrite lineEntries_spec. apply Forall_forall. intros p Hp.
  apply in_map_iff in Hp as (k & <- & Hk). cbn.
  apply (proj1 (first_keys_In same_value_zero same_value_zero_eq _ _)) in Hk.
  apply in_map_iff in Hk as (d & <- & Hd). apply filter_In in Hd as [ _ Hw ].
  apply in_window_year in Hw as (y & Hy & Hle).
  exists y. rewrite Hy. repeat split; assumption.
Qed.

(** X1. Every point of the yearly series has a year that is a number, at
    least 2010, and its gross is the sum of the gross of the window
    records of that year (0 when none of them has an amount). *)
Theorem lineData_points (data : list Movie.t) :
  Forall
    (fun p =>
       exists y,
         LinePoint.year p = Number (Num y)
         /\ Qc_of_Z 2010 <= y
         /\ LinePoint.gross p = Number (Num (year_total data (LinePoint.year p))))
    (lineData data).
Proof.
  eapply Permutation_Forall; [ symmetry; apply lineData_perm | ].
  apply Forall_forall. intros p Hp.
  pose proof (lineEntries_points data) as H. rewrite Forall_forall in H.
  exact (H p Hp).
Qed.




(* ================================================================== *)
(** * Facts: order on rationals, through [Q] *)
(* ================================================================== *)

Lemma this_add (x y : Qc) : (this (x + y) == this x + this y)%Q.
Proof. exact (Qred_correct (this x + this y)). Qed.

Lemma this_mul (x y : Qc) : (this (x * y) == this x * this y)%Q.
Proof. exact (Qred_correct (this x * this y)). Qed.

Lemma this_opp (x : Qc) : (this (- x) == - this x)%Q.
Proof. exact (Qred_correct (- this x)). Qed.

Lemma this_sub (x y : Qc) : (this (x - y) == this x - this y)%Q.
Proof. unfold Qcminus. rewrite this_add, this_opp. reflexivity. Qed.

(** Moves an order goal on [Qc], and the order hypotheses, to [Q]. *)
Ltac qc2q :=
  unfold Qcle, Qclt in *;
  repeat match goal with
         | H : context [this (_ + _)] |- _ => rewrite this_add in H
         | H : context [this (_ * _)] |- _ => rewrite this_mul in H
         | H : context [this (_ - _)] |- _ => rewrite this_sub in H
         | H : context [this (- _)] |- _ => rewrite this_opp in H
         | |- context [this (_ + _)] => rewrite this_add
         | |- context [this (_ * _)] => rewrite this_mul
         | |- context [this (_ - _)] => rewrite this_sub
         | |- context [this (- _)] => rewrite this_opp
         end;
  change (this 0) with 0%Q in *; change (this 1) with 1%Q in *.

Lemma Qc_neq_sub (a b : Qc) : a <> b -> b - a <> 0.
Proof.
  intros H E. apply H. replace b with ((b - a) + a) by ring. rewrite E. ring.
Qed.

(** [(y - a) / (b - a)] as the [t] with [t * (b - a) = y - a]. *)
Lemma ratio_mul (a b y : Qc) : a <> b -> (y - a) / (b - a) * (b - a) = y - a.
Proof. intros H. field. apply Qc_neq_sub, H. Qed.

Lemma ratio_bounds (a b y : Qc) :
  a < b -> a <= y -> y <= b ->
  0 <= (y - a) / (b - a) /\ (y - a) / (b - a) <= 1.
Proof.
  intros Hab Hay Hyb.
  assert (a <> b) as Hne by (intros ->; exact (Qclt_not_eq _ _ Hab eq_refl)).
  pose proof (ratio_mul a b y Hne) as E.
  set (t := (y - a) / (b - a)) in *.
  assert (this (t * (b - a)) == this (y - a))%Q as E' by (rewrite E; reflexivity).
  clear E. rewrite this_mul, !this_sub in E'.
  split; qc2q; nra.
Qed.

Lemma ratio_lt (a b y z : Qc) :
  a < b -> y < z -> (y - a) / (b - a) < (z - a) / (b - a).
Proof.
  intros Hab Hyz.
  assert (a <> b) as Hne by (intros ->; exact (Qclt_not_eq _ _ Hab eq_refl)).
  pose proof (ratio_mul a b y Hne) as Ey.
  pose proof (ratio_mul a b z Hne) as Ez.
  set (t := (y - a) / (b - a)) in *. set (u := (z - a) / (b - a)) in *.
  assert (this (t * (b - a)) == this (y - a))%Q as Ey' by (rewrite Ey; reflexivity).
  assert (this (u * (b - a)) == this (z - a))%Q as Ez' by (rewrite Ez; reflexivity).
  clear Ey Ez. rewrite this_mul, !this_sub in Ey', Ez'.
  qc2q. nra.
Qed.

(* ================================================================== *)
(** * Facts: [d3.max] and linear scales *)
(* ================================================================== *)

Lemma max_fold {A : Type} (valueof : A -> value) (l : list A) (m0 : Qc) :
  Forall (fun x => exists q, valueof x = Number (Num q)) l ->
  exists m,
    fold_left (max_step valueof) l (Number (Num m0)) = Number (Num m)
    /\ m0 <= m
    /\ Forall (fun x => amount (valueof x) <= m) l
    /\ (m = m0 \/ exists x, In x l /\ valueof x = Number (Num m)).
Proof.
  intros H. revert m0. induction H as [ | x l (q & Hq) _ IH ]; intros m0.
  - exists m0. cbn. repeat split; [ apply Qcle_refl | constructor | left; reflexivity ].
  - cbn [fold_left]. unfold max_step at 2. cbv zeta. rewrite Hq.
    cbn [neq_null is_undefined andb orb].
    unfold lt. cbn [ToNumber number_lt]. rewrite orb_false_r.
    destruct (Qc_ltb m0 q) eqn:E.
    + apply Qc_ltb_lt in E. destruct (IH q) as (m & Hm & Hle & Hall & Hat).
      exists m. rewrite Hm. repeat split.
      * eapply Qcle_trans; [ apply Qclt_le_weak, E | exact Hle ].
      * constructor; [ rewrite Hq; exact Hle | exact Hall ].
      * right. destruct Hat as [ -> | (y & Hy & Hv) ].
        -- exists x. split; [ left; reflexivity | exact Hq ].
        -- exists y. split; [ right; exact Hy | exact Hv ].
    + assert (q <= m0) as Hqm.
      { apply Qcnot_lt_le. intros Hlt. apply Qc_ltb_lt in Hlt. congruence. }
      destruct (IH m0) as (m & Hm & Hle & Hall & Hat).
      exists m. rewrite Hm. repeat split.
      * exact Hle.
      * constructor; [ rewrite Hq; cbn; eapply Qcle_trans; eauto | exact Hall ].
      * destruct Hat as [ -> | (y & Hy & Hv) ]; [ left; reflexivity | ].
        right. exists y. split; [ right; exact Hy | exact Hv ].
Qed.

(** On values that are all numbers, [d3.max] is the greatest of them. *)
Lemma max_numeric {A : Type} (valueof : A -> value) (l : list A) :
  l <> [] ->
  Forall (fun x => exists q, valueof x = Number (Num q)) l ->
  exists m,
    D3.max l valueof = Number (Num m)
    /\ Forall (fun x => amount (valueof x) <= m) l
    /\ exists x, In x l /\ valueof x = Number (Num m).
Proof.
  intros Hne H. destruct l as [ | x l ]; [ congruence | ].
  inversion H as [ | ? ? (q & Hq) Hl ]; subst.
  change (D3.max (x :: l) valueof)
    with (fold_left (max_step valueof) l (max_step valueof Undefined x)).
  unfold max_step at 2. cbv zeta. rewrite Hq.
  cbn [neq_null is_undefined andb orb]. unfold lt, ge.
  cbn [ToNumber number_lt number_ge].
  assert (Qc_leb q q = true) as -> by (apply Qc_leb_le, Qcle_refl).
  cbn [orb]. destruct (max_fold valueof l q Hl) as (m & Hm & Hle & Hall & Hat).
  exists m. split; [ exact Hm | split ].
  - constructor; [ rewrite Hq; exact Hle | exact Hall ].
  - destruct Hat as [ -> | (y & Hy & Hv) ].
    + exists x. split; [ left; reflexivity | exact Hq ].
    + exists y. split; [ right; exact Hy | exact Hv ].
Qed.

(** The affine form of a linear scale whose domain is not a point. *)
Lemma linear_apply_affine (s : D3.linear) (d0 d1 r0 r1 x : Qc) :
  D3.linear_domain s = (Num d0, Num d1) ->
  D3.linear_range s = (Num r0, Num r1) ->
  d0 <> d1 ->
  D3.linear_apply s (Number (Num x))
  = Number (Num (r0 + (r1 - r0) * ((x - d0) / (d1 - d0)))).
Proof.
  intros Hd Hr Hne. unfold D3.linear_apply. rewrite Hd, Hr.
  unfold D3.bimap. cbn.
  pose proof (Qc_neq_sub d0 d1 Hne) as Hn.
  pose proof (Qc_neq_sub d1 d0 (not_eq_sym Hne)) as Hn'.
  destruct (Qc_ltb d1 d0); rewrite !normalize_distinct by congruence;
    unfold D3.interpolateNumber; cbn; do 2 f_equal; field;
    repeat split; assumption.
Qed.

(** On a one-point domain, the middle of the range. *)
Lemma linear_apply_point (s : D3.linear) (d r0 r1 x : Qc) :
  D3.linear_domain s = (Num d, Num d) ->
  D3.linear_range s = (Num r0, Num r1) ->
  D3.linear_apply s (Number (Num x)) = Number (Num ((r0 + r1) * half)).
Proof.
  intros Hd Hr. unfold D3.linear_apply. rewrite Hd, Hr.
  unfold D3.bimap. cbn.
  destruct (Qc_ltb d d); rewrite normalize_same;
    unfold D3.interpolateNumber; cbn; rewrite one_minus_half;
    do 2 f_equal; ring.
Qed.

(* ================================================================== *)
(** * Further properties: where the line chart puts its points *)
(* ================================================================== *)

Lemma width_pos : 0 < width.
Proof. reflexivity. Qed.

Lemma height_pos : 0 < height.
Proof. reflexivity. Qed.

Lemma half_bounds : 0 < half /\ half < 1.
Proof. split; reflexivity. Qed.

(** The domain of [xYear] on a series that is not empty: from 2010 to the
    greatest year, which bounds every year of the series. *)
Lemma xYear_domain (data : list Movie.t) :
  lineData data <> [] ->
  exists Y,
    D3.linear_domain (xYear data) = (Num (Qc_of_Z 2010), Num Y)
    /\ Forall (fun p => exists y, LinePoint.year p = Number (Num y)
                                  /\ Qc_of_Z 2010 <= y /\ y <= Y)
              (lineData data).
Proof.
  intros Hne.
  assert (Forall (fun p => exists y, LinePoint.year p = Number (Num y)
                                     /\ Qc_of_Z 2010 <= y)
                 (lineData data)) as Hy.
  { eapply Forall_impl; [ | apply lineData_Forall, lineEntries_points ].
    intros p (y & Hy & Hle & _). exists y. split; assumption. }
  destruct (max_numeric LinePoint.year (lineData data) Hne) as (Y & HY & Hall & _).
  { eapply Forall_impl; [ | exact Hy ]. intros p (y & H & _). exists y. exact H. }
  exists Y. split.
  - unfold xYear, D3.scaleLinear. cbn [D3.linear_domain fst snd ToNumber].
    rewrite HY. reflexivity.
  - rewrite Forall_forall in *. intros p Hp.
    destruct (Hy p Hp) as (y & E & Hle). exists y. repeat split; try assumption.
    specialize (Hall p Hp). rewrite E in Hall. exact Hall.
Qed.

(** X3. Every point of the series gets an abscissa between 0 and the
    width, and the abscissas increase strictly along the series. *)
Theorem line_x_positions (data : list Movie.t) :
  Forall (fun p => exists x, line_x data p = Number (Num x)
                             /\ 0 <= x /\ x <= width)
         (lineData data)
  /\ StronglySorted (fun p q => Js.lt (line_x data p) (line_x data q) = true)
                    (lineData data).
Proof.
  destruct (lineData data) as [ | p0 l ] eqn:El.
  { split; constructor. }
  rewrite <- El.
  destruct (xYear_domain data) as (Y & Hd & Hall); [ congruence | ].
  assert (D3.linear_range (xYear data) = (Num 0, Num width)) as Hr by reflexivity.
  pose proof width_pos as Hw. destruct half_bounds as [ Hh0 Hh1 ].
  destruct (Qc_eq_dec (Qc_of_Z 2010) Y) as [ <- | Hne ].
  - split.
    + eapply Forall_impl; [ | exact Hall ]. intros p (y & Ey & _).
      exists ((0 + width) * half). unfold line_x. rewrite Ey.
      split; [ apply (linear_apply_point _ _ _ _ _ Hd Hr) | ].
      split; qc2q; nra.
    + eapply StronglySorted_weaken; [ | exact Hall | apply lineData_strict ].
      intros a b (ya & Ea & Ha1 & Ha2) (yb & Eb & Hb1 & Hb2) Hlt. exfalso.
      rewrite Ea, Eb in Hlt. cbn in Hlt. apply Qc_ltb_lt in Hlt.
      qc2q. lra.
  - assert (Qc_of_Z 2010 < Y) as Hlt.
    { rewrite Forall_forall in Hall.
      destruct (Hall p0) as (y & _ & H1 & H2);
        [ rewrite El; left; reflexivity | ].
      destruct (Qcle_lt_or_eq _ _ (Qcle_trans _ _ _ H1 H2)) as [ H | H ];
        [ exact H | contradiction ]. }
    split.
    + eapply Forall_impl; [ | exact Hall ]. intros p (y & Ey & H1 & H2).
      eexists. unfold line_x. rewrite Ey.
      split; [ apply (linear_apply_affine _ _ _ _ _ _ Hd Hr Hne) | ].
      destruct (ratio_bounds _ _ y Hlt H1 H2) as [ Ht0 Ht1 ].
      set (t := (y - Qc_of_Z 2010) / (Y - Qc_of_Z 2010)) in *.
      split; qc2q; nra.
    + eapply StronglySorted_weaken; [ | exact Hall | apply lineData_strict ].
      intros a b (ya & Ea & _) (yb & Eb & _) Hab. unfold line_x.
      rewrite Ea, Eb in *.
      rewrite !(linear_apply_affine _ _ _ _ _ _ Hd Hr Hne).
      cbn in Hab |- *. apply Qc_ltb_lt in Hab. apply Qc_ltb_lt.
      pose proof (ratio_lt _ _ _ _ Hlt Hab) as Ht.
      set (t := (ya - Qc_of_Z 2010) / (Y - Qc_of_Z 2010)) in *.
      set (u := (yb - Qc_of_Z 2010) / (Y - Qc_of_Z 2010)) in *.
      qc2q. nra.
Qed.

Lemma Qc_sum_nonneg (l : list Qc) : Forall (fun q => 0 <= q) l -> 0 <= Qc_sum l.
Proof.
  induction 1 as [ | q l Hq _ IH ].
  - apply Qcle_refl.
  - rewrite Qc_sum_cons. qc2q. lra.
Qed.

Lemma year_total_nonneg (data : list Movie.t) (y : value) :
  Forall (fun d => 0 <= amount (Movie.gross d)) data -> 0 <= year_total data y.
Proof.
  intros H. apply Qc_sum_nonneg. apply Forall_forall. intros q Hq.
  apply in_map_iff in Hq as (d & <- & Hd).
  apply filter_In in Hd as [ Hd _ ]. apply filter_In in Hd as [ Hd _ ].
  rewrite Forall_forall in H. apply H, Hd.
Qed.

(** The domain of [yGross] on a series that is not empty: from 0 to the
    greatest total, which some point has. *)
Lemma yGross_domain (data : list Movie.t) :
  lineData data <> [] ->
  exists M,
    D3.linear_domain (yGross data) = (Num 0, Num M)
    /\ Forall (fun p => amount (LinePoint.gross p) <= M) (lineData data)
    /\ exists p, In p (lineData data) /\ LinePoint.gross p = Number (Num M).
Proof.
  intros Hne.
  destruct (max_numeric LinePoint.gross (lineData data) Hne) as (M & HM & Hall & Hat).
  { eapply Forall_impl; [ | apply lineData_Forall, lineEntries_points ].
    intros p (y & _ & _ & Hg). eexists. exact Hg. }
  exists M. split; [ | split; assumption ].
  unfold yGross, D3.scaleLinear. cbn [D3.linear_domain fst snd ToNumber].
  rewrite HM. reflexivity.
Qed.

(** X4. When no record has a negative gross, every point of the series
    gets an ordinate between 0 and the height; and if some total is
    positive, a point with the greatest total is at ordinate 0. *)
Theorem line_y_positions (data : list Movie.t) :
  Forall (fun d => 0 <= amount (Movie.gross d)) data ->
  Forall (fun p => exists y, line_y data p = Number (Num y)
                             /\ 0 <= y /\ y <= height)
         (lineData data)
  /\ ((exists p, In p (lineData data) /\ 0 < amount (LinePoint.gross p)) ->
      exists p, In p (lineData data)
                /\ line_y data p = Number (Num 0)
                /\ Forall (fun q => amount (LinePoint.gross q)
                                    <= amount (LinePoint.gross p))
                          (lineData data)).
Proof.
  intros Hpos.
  destruct (lineData data) as [ | p0 l ] eqn:El.
  { split; [ constructor | intros (p & [] & _) ]. }
  rewrite <- El.
  destruct (yGross_domain data) as (M & Hd & Hall & pM & HpM & EM); [ congruence | ].
  assert (D3.linear_range (yGross data) = (Num height, Num 0)) as Hr by reflexivity.
  pose proof height_pos as Hh. destruct half_bounds as [ Hh0 Hh1 ].
  assert (Forall (fun p => exists g, LinePoint.gross p = Number (Num g)
                                     /\ 0 <= g /\ g <= M)
                 (lineData data)) as Hg.
  { pose proof (lineData_Forall _ _ (lineEntries_points data)) as Hp. rewrite Forall_forall in *.
    intros p Hin. destruct (Hp p Hin) as (y & _ & _ & E).
    eexists. split; [ exact E | ]. split.
    - apply year_total_nonneg, Forall_forall, Hpos.
    - specialize (Hall p Hin). rewrite E in Hall. exact Hall. }
  destruct (Qc_eq_dec 0 M) as [ <- | Hne ].
  - split.
    + eapply Forall_impl; [ | exact Hg ]. intros p (g & Eg & _).
      exists ((height + 0) * half). unfold line_y. rewrite Eg.
      split; [ apply (linear_apply_point _ _ _ _ _ Hd Hr) | ].
      split; qc2q; nra.
    + intros (p & Hin & Hp). exfalso. rewrite Forall_forall in Hg.
      destruct (Hg p Hin) as (g & Eg & _ & Hle). rewrite Eg in Hp. cbn in Hp.
      qc2q. lra.
  - assert (0 < M) as Hlt.
    { rewrite Forall_forall in Hg. destruct (Hg p0) as (g & _ & H1 & H2);
        [ rewrite El; left; reflexivity | ].
      destruct (Qcle_lt_or_eq _ _ (Qcle_trans _ _ _ H1 H2)) as [ H | H ];
        [ exact H | contradiction ]. }
    split.
    + eapply Forall_impl; [ | exact Hg ]. intros p (g & Eg & H1 & H2).
      eexists. unfold line_y. rewrite Eg.
      split; [ apply (linear_apply_affine _ _ _ _ _ _ Hd Hr Hne) | ].
      destruct (ratio_bounds _ _ g Hlt H1 H2) as [ Ht0 Ht1 ].
      set (t := (g - 0) / (M - 0)) in *.
      split; qc2q; nra.
    + intros _. exists pM. split; [ exact HpM | split ].
      * unfold line_y. rewrite EM.
        rewrite (linear_apply_affine _ _ _ _ _ _ Hd Hr Hne).
        do 2 f_equal. field. intros E. apply Hne. rewrite <- E. ring.
      * rewrite EM. exact Hall.
Qed.

Lemma line_y_positions_witness :
  Forall (fun d => 0 <= amount (Movie.gross d)) tied_movies
  /\ Forall (fun p => exists y, line_y tied_movies p = Number (Num y)
                                /\ 0 <= y /\ y <= height)
            (lineData tied_movies).
Proof.
  assert (Forall (fun d => 0 <= amount (Movie.gross d)) tied_movies) as H
      by (repeat constructor; discriminate).
  split; [ exact H | exact (proj1 (line_y_positions tied_movies H)) ].
Defined.

(** X5. When no record of the window has an amount of gross (every gross
    is blank, zero or not a number), the domain of [yGross] is the point
    0 and every point of the series is drawn at mid-height. *)
Theorem line_y_flat (data : list Movie.t) :
  Forall (fun d => amount (Movie.gross d) = 0) data ->
  Forall (fun p => LinePoint.gross p = Number (Num 0)
                   /\ line_y data p = Number (Num (height * half)))
         (lineData data).
Proof.
  intros Hz.
  assert (Forall (fun p => LinePoint.gross p = Number (Num 0)) (lineData data)) as Hg.
  { eapply Forall_impl; [ | apply lineData_Forall, lineEntries_points ].
    intros p (y & _ & _ & E). rewrite E. do 2 f_equal.
    unfold year_total. rewrite (map_ext_in _ (fun _ => 0)); [ apply Qc_sum_zero | ].
    intros d Hd. apply filter_In in Hd as [ Hd _ ]. apply filter_In in Hd as [ Hd _ ].
    rewrite Forall_forall in Hz. apply Hz, Hd. }
  destruct (lineData data) as [ | p0 l ] eqn:El; [ constructor | ].
  rewrite <- El in *.
  destruct (yGross_domain data) as (M & Hd & _ & pM & HpM & EM); [ congruence | ].
  assert (M = 0) as ->.
  { rewrite Forall_forall in Hg. rewrite (Hg pM HpM) in EM. congruence. }
  eapply Forall_impl; [ | exact Hg ]. intros p Ep. split; [ exact Ep | ].
  unfold line_y. rewrite Ep.
  rewrite (linear_apply_point _ 0 height 0 0 Hd eq_refl).
  apply (f_equal Number), (f_equal Num). ring.
Qed.

Lemma line_y_flat_witness :
  let data := [ movie (Number NaN) Null (num 2012) "A";
                movie (num 0) Null (num 2013) "B" ] in
  Forall (fun d => amount (Movie.gross d) = 0) data
  /\ Forall (fun p => LinePoint.gross p = Number (Num 0)
                      /\ line_y data p = Number (Num (height * half)))
            (lineData data).
Proof.
  intros data.
  assert (Forall (fun d => amount (Movie.gross d) = 0) data) as H
      by (repeat constructor; apply Qc_is_canon; reflexivity).
  split; [ exact H | exact (line_y_flat data H) ].
Defined.

(* ================================================================== *)
(** * Further properties of the director series *)
(* ================================================================== *)

Lemma StronglySorted_app_cross {A : Type} (R : A -> A -> Prop) (l1 l2 : list A) :
  StronglySorted R (l1 ++ l2) ->
  forall a b, In a l1 -> In b l2 -> R a b.
Proof.
  induction l1 as [ | x l1 IH ]; intros Hs a b Ha Hb; [ destruct Ha | ].
  cbn in Hs. inversion Hs as [ | ? ? Hs' Hall ]; subst.
  destruct Ha as [ <- | Ha ].
  - rewrite Forall_forall in Hall. apply Hall, in_or_app. right. exact Hb.
  - apply IH; assumption.
Qed.

Lemma barFinalArr_In_entries (data : list Movie.t) (e : Bar.t) :
  In e (barFinalArr data) -> In e (barEntries data).
Proof.
  unfold barFinalArr, slice0. intros H.
  eapply Permutation_in; [ apply sort_perm | ].
  rewrite <- (firstn_skipn 6 (sort _ _)). apply in_or_app. left. exact H.
Qed.

(** Before the slice: the whole sorted sequence is in non-increasing
    order when every mean is a number. *)
Lemma bar_sort_sorted (data : list Movie.t) :
  Forall (fun e => Bar.score e <> Undefined) (barEntries data) ->
  non_increasing
    (sort (fun a b => minus (Bar.score b) (Bar.score a)) (barEntries data)).
Proof.
  intros Hdef.
  assert (Forall (fun e => exists q, Bar.score e = Number (Num q))
                 (barEntries data)) as Hnum.
  { pose proof (barEntries_scores data) as Hs.
    rewrite Forall_forall in *. intros e He.
    destruct (Hs e He) as [ Hu | Hq ]; [ | exact Hq ].
    exfalso. exact (Hdef e He Hu). }
  unfold non_increasing.
  eapply StronglySorted_weaken
    with (P := fun e => exists q, Bar.score e = Number (Num q)).
  3: exact (sort_sorted _ _ (fun e => - amount (Bar.score e)) by_score_le _ Hnum).
  - intros a b (sa & Ha) (sb & Hb) Hle. rewrite Ha, Hb in *. cbn in *.
    apply Qc_leb_le. apply Qcopp_le_compat in Hle.
    rewrite !Qcopp_involutive in Hle. exact Hle.
  - eapply Permutation_Forall; [ symmetry; apply sort_perm | exact Hnum ].
Qed.

(** X6. When every mean is a number, the output holds the best: each of
    its entries has a mean at least as great as that of any director
    left out. *)
Theorem barFinalArr_best (data : list Movie.t) :
  Forall (fun e => Bar.score e <> Undefined) (barEntries data) ->
  Forall
    (fun a =>
       Forall (fun b => In b (barFinalArr data)
                        \/ ge (Bar.score a) (Bar.score b) = true)
              (barEntries data))
    (barFinalArr data).
Proof.
  intros Hdef. pose proof (bar_sort_sorted data Hdef) as Hs.
  unfold non_increasing in Hs.
  set (sorted := sort _ (barEntries data)) in *.
  assert (barFinalArr data = firstn 6 sorted) as E by reflexivity.
  rewrite <- (firstn_skipn 6 sorted) in Hs.
  apply Forall_forall. intros a Ha. apply Forall_forall. intros b Hb.
  assert (In b sorted) as Hb'
      by (apply (Permutation_in _ (Permutation_sym (sort_perm _ _))), Hb).
  clear Hb. rename Hb' into Hb. rewrite <- (firstn_skipn 6 sorted) in Hb.
  apply in_app_or in Hb as [ Hb | Hb ].
  - left. rewrite E. exact Hb.
  - right. rewrite E in Ha.
    exact (StronglySorted_app_cross _ _ _ Hs a b Ha Hb).
Qed.

Lemma barFinalArr_best_witness :
  Forall (fun e => Bar.score e <> Undefined) (barEntries ten_directors)
  /\ List.length (barEntries ten_directors) = 10%nat
  /\ Forall
       (fun a =>
          Forall (fun b => In b (barFinalArr ten_directors)
                           \/ ge (Bar.score a) (Bar.score b) = true)
                 (barEntries ten_directors))
       (barFinalArr ten_directors).
Proof.
  assert (Forall (fun e => Bar.score e <> Undefined) (barEntries ten_directors))
    as H by (repeat constructor; discriminate).
  split; [ exact H | split; [ reflexivity | ] ].
  exact (barFinalArr_best ten_directors H).
Defined.

(** X7. The directors of the output are pairwise distinct and not empty,
    each is the director of a record with a score that is not null, and
    there are six of them, or as many as there are directors if fewer. *)
Theorem barFinalArr_directors (data : list Movie.t) :
  NoDup (map Bar.director (barFinalArr data))
  /\ Forall
       (fun e =>
          Bar.director e <> EmptyString
          /\ exists d, In d data
                       /\ Movie.director d = Bar.director e
                       /\ neq_null (Movie.score d) = true)
       (barFinalArr data)
  /\ List.length (barFinalArr data)
     = Nat.min 6 (List.length
                    (first_keys String.eqb
                                (map Movie.director (barCleanData data)))).
Proof.
  set (sorted := sort (fun a b => minus (Bar.score b) (Bar.score a))
                      (barEntries data)).
  assert (Permutation sorted (barEntries data)) as Hp by apply sort_perm.
  assert (barFinalArr data = firstn 6 sorted) as E by reflexivity.
  split; [ | split ].
  - rewrite E, <- firstn_map.
    apply (NoDup_app_remove_r _ (skipn 6 (map Bar.director sorted))).
    rewrite firstn_skipn.
    eapply Permutation_NoDup; [ symmetry; apply Permutation_map, Hp | ].
    rewrite barEntries_directors. apply first_keys_NoDup, String.eqb_eq.
  - apply Forall_forall. intros e He. rewrite E in He.
    assert (In e sorted) as Hs.
    { rewrite <- (firstn_skipn 6 sorted). apply in_or_app. left. exact He. }
    apply (Permutation_in _ Hp) in Hs.
    apply (in_map Bar.director) in Hs. rewrite barEntries_directors in Hs.
    apply (proj1 (first_keys_In String.eqb String.eqb_eq _ _)) in Hs.
    apply in_map_iff in Hs as (d & Hd & Hin).
    split; [ rewrite <- Hd; eapply barCleanData_director, Hin | ].
    exists d. apply filter_In in Hin as [ Hin Hf ].
    apply andb_prop in Hf as [ _ Hf ]. repeat split; assumption.
  - rewrite E, length_firstn. f_equal.
    rewrite (Permutation_length Hp), <- barEntries_directors.
    symmetry. apply length_map.
Qed.

(** *** Means *)




Lemma Qc_of_nat_S (n : nat) : Qc_of_nat (S n) = Qc_of_nat n + 1.
Proof.
  apply Qc_is_canon. rewrite this_add. unfold Qc_of_nat, Qc_of_Z.
  cbn [this Q2Qc]. rewrite !Qred_correct.
  replace (Z.of_nat (S n)) with (Z.of_nat n + 1)%Z by lia.
  rewrite inject_Z_plus. reflexivity.
Qed.








(* ================================================================== *)
(** * Further properties: where the bar chart puts its bars *)
(* ================================================================== *)

Lemma ordinal_domain_NoDup (seen values : list string) :
  NoDup (rev seen ++ values) ->
  D3.ordinal_domain seen values = rev seen ++ values.
Proof.
  revert seen. induction values as [ | v values IH ]; intros seen Hnd.
  - cbn. rewrite app_nil_r. reflexivity.
  - cbn [D3.ordinal_domain].
    assert (existsb (String.eqb v) seen = false) as ->.
    { destruct (existsb (String.eqb v) seen) eqn:E; [ exfalso | reflexivity ].
      apply existsb_exists in E as (x & Hx & E). apply String.eqb_eq in E. subst x.
      apply NoDup_remove_2 in Hnd. apply Hnd, in_or_app. left.
      apply in_rev in Hx. exact Hx. }
    rewrite IH; cbn [rev]; rewrite <- app_assoc; [ reflexivity | exact Hnd ].
Qed.

Lemma index_of_nth (l : list string) (i : nat) (d : string) :
  NoDup l -> nth_error l i = Some d -> D3.index_of d l = Some i.
Proof.
  revert i. induction l as [ | x l IH ]; intros i Hnd H; [ destruct i; discriminate | ].
  inversion Hnd as [ | ? ? Hx Hnd' ]; subst.
  destruct i as [ | i ]; cbn in H |- *.
  - injection H as ->. rewrite String.eqb_refl. reflexivity.
  - assert (String.eqb x d = false) as ->.
    { apply String.eqb_neq. intros ->. apply Hx. eapply nth_error_In, H. }
    rewrite (IH i Hnd' H). reflexivity.
Qed.

Lemma tenth_value : this tenth = (1 # 10)%Q.
Proof. reflexivity. Qed.

Lemma half_value : this half = (1 # 2)%Q.
Proof. reflexivity. Qed.

Lemma width_value : this width = (700 # 1)%Q.
Proof. reflexivity. Qed.

Lemma Qc_of_nat_nonneg (n : nat) : 0 <= Qc_of_nat n.
Proof.
  destruct n as [ | n ]; [ apply Qcle_refl | ].
  apply Qclt_le_weak, Qc_of_nat_S_pos.
Qed.

(** The band scale of the script on [n >= 1] distinct directors: its
    step, the start of its first band, its bandwidth, its bands. *)
Section BandLayout.
Variable dirs : list string.
Hypothesis dirs_NoDup : NoDup dirs.
Hypothesis dirs_not_empty : dirs <> [].

Let s : D3.band := D3.scaleBand dirs (Num 0, Num width) (Num tenth).
Let n : Qc := Qc_of_nat (List.length dirs).
Let step : Qc := (width - 0) / (n - tenth + tenth * Qc_of_Z 2).
Let start : Qc := 0 + (width - 0 - step * (n - tenth)) * half.

Lemma band_n_ge_1 : 1 <= n.
Proof.
  unfold n. destruct dirs as [ | d l ]; [ congruence | ].
  cbn [List.length]. rewrite Qc_of_nat_S.
  pose proof (Qc_of_nat_nonneg (List.length l)). qc2q. lra.
Qed.

Lemma band_domain_eq : D3.band_domain s = dirs.
Proof. apply (ordinal_domain_NoDup [] dirs), dirs_NoDup. Qed.

Lemma band_step_eq : D3.band_step s = Num step.
Proof.
  pose proof band_n_ge_1 as Hn.
  unfold D3.band_step, D3.band_stop, D3.band_start0, D3.band_reverse, D3.band_n.
  rewrite band_domain_eq. fold n. cbn.
  assert (Qc_ltb 1 (n - tenth + tenth * Qc_of_Z 2) = true) as ->.
  { apply Qc_ltb_lt. qc2q. rewrite tenth_value.
    change (this (Qc_of_Z 2)) with 2%Q. lra. }
  cbn.
  assert (Qc_eq_bool (n - tenth + tenth * Qc_of_Z 2) 0 = false) as ->.
  { apply Qc_eq_bool_neq. intros E.
    assert (0 < n - tenth + tenth * Qc_of_Z 2) as H.
    { qc2q. rewrite tenth_value. change (this (Qc_of_Z 2)) with 2%Q. lra. }
    rewrite E in H. exact (Qclt_not_eq _ _ H eq_refl). }
  reflexivity.
Qed.

Lemma band_start_eq : D3.band_start s = Num start.
Proof.
  unfold D3.band_start. rewrite band_step_eq.
  unfold D3.band_stop, D3.band_start0, D3.band_reverse, D3.band_n.
  rewrite band_domain_eq. reflexivity.
Qed.

Lemma bandwidth_eq : D3.bandwidth s = Num (step * (1 - tenth)).
Proof. unfold D3.bandwidth. rewrite band_step_eq. reflexivity. Qed.

Lemma band_values_eq :
  D3.band_values s
  = map (fun i => Num (start + step * Qc_of_nat i)) (seq 0 (List.length dirs)).
Proof.
  unfold D3.band_values. rewrite band_start_eq, band_step_eq, band_domain_eq.
  reflexivity.
Qed.

Lemma band_apply_nth (i : nat) (d : string) :
  nth_error dirs i = Some d ->
  D3.band_apply s d = Number (Num (start + step * Qc_of_nat i)).
Proof.
  intros H. unfold D3.band_apply.
  rewrite band_domain_eq, (index_of_nth _ _ _ dirs_NoDup H), band_values_eq.
  assert (i < List.length dirs)%nat as Hi by (apply nth_error_Some; congruence).
  rewrite length_map, length_seq, Nat.mod_small by exact Hi.
  rewrite nth_error_map, nth_error_seq.
  apply Nat.ltb_lt in Hi. rewrite Hi. reflexivity.
Qed.

(** The step times the number of steps is the width. *)
Lemma band_step_spec : 0 < step /\ step * (n + tenth) = width.
Proof.
  pose proof band_n_ge_1 as Hn.
  assert (n - tenth + tenth * Qc_of_Z 2 <> 0) as Hd.
  { intros E.
    assert (0 < n - tenth + tenth * Qc_of_Z 2) as H.
    { qc2q. rewrite tenth_value. change (this (Qc_of_Z 2)) with 2%Q. lra. }
    rewrite E in H. exact (Qclt_not_eq _ _ H eq_refl). }
  assert (step * (n - tenth + tenth * Qc_of_Z 2) = width) as E.
  { unfold step. field. exact Hd. }
  assert (step * (n + tenth) = width) as E'.
  { rewrite <- E. apply Qc_is_canon. rewrite !this_mul, !this_add, this_sub, this_mul.
    rewrite tenth_value. change (this (Qc_of_Z 2)) with 2%Q. ring. }
  split; [ | exact E' ].
  assert (this (step * (n + tenth)) == this width)%Q as E''
      by (rewrite E'; reflexivity).
  rewrite this_mul, this_add, tenth_value, width_value in E''.
  qc2q. nra.
Qed.
End BandLayout.

Lemma Qc_of_nat_le (a b : nat) : (a <= b)%nat -> Qc_of_nat a <= Qc_of_nat b.
Proof.
  intros H. unfold Qc_of_nat, Qc_of_Z, Qcle. cbn [this Q2Qc].
  rewrite !Qred_correct. rewrite <- Zle_Qle. lia.
Qed.

Lemma barFinalArr_NoDup (data : list Movie.t) :
  NoDup (map Bar.director (barFinalArr data)).
Proof.
  unfold barFinalArr, slice0. rewrite <- firstn_map.
  set (sorted := sort _ (barEntries data)).
  apply (NoDup_app_remove_r _ (skipn 6 (map Bar.director sorted))).
  rewrite firstn_skipn.
  eapply Permutation_NoDup; [ symmetry; apply Permutation_map, sort_perm | ].
  rewrite barEntries_directors. apply first_keys_NoDup, String.eqb_eq.
Qed.

(** X11. Every bar has a defined abscissa and a positive width, lies
    between 0 and the width of the chart, and ends strictly before the
    next bar starts. *)
Theorem bars_layout (data : list Movie.t) (i : nat) (e : Bar.t) :
  nth_error (barFinalArr data) i = Some e ->
  exists x w,
    rect_x data e = Number (Num x)
    /\ rect_width data = Num w
    /\ 0 < w /\ 0 <= x /\ x + w <= width
    /\ forall e', nth_error (barFinalArr data) (S i) = Some e' ->
                  exists x', rect_x data e' = Number (Num x') /\ x + w < x'.
Proof.
  intros He.
  set (dirs := map Bar.director (barFinalArr data)).
  assert (NoDup dirs) as Hnd by apply barFinalArr_NoDup.
  assert (nth_error dirs i = Some (Bar.director e)) as Hi
      by (apply map_nth_error, He).
  assert (dirs <> []) as Hne by (intros E; rewrite E in Hi; destruct i; discriminate).
  assert (i < List.length dirs)%nat as Hlt by (apply nth_error_Some; congruence).
  destruct (band_step_spec dirs Hnd Hne) as [ Hstep Hw ].
  pose proof (Qc_of_nat_le _ _ Hlt) as Hin. rewrite Qc_of_nat_S in Hin.
  pose proof (Qc_of_nat_nonneg i) as Hi0.
  assert (this ((width - 0) / (Qc_of_nat (List.length dirs) - tenth
                               + tenth * Qc_of_Z 2)
                * (Qc_of_nat (List.length dirs) + tenth)) == this width)%Q as E
      by (rewrite Hw; reflexivity).
  clear Hw.
  set (step := (width - 0) / (Qc_of_nat (List.length dirs) - tenth
                              + tenth * Qc_of_Z 2)) in *.
  set (n := Qc_of_nat (List.length dirs)) in *.
  rewrite this_mul, this_add, tenth_value, width_value in E.
  eexists. eexists.
  split; [ exact (band_apply_nth dirs Hnd Hne i _ Hi) | ].
  split; [ exact (bandwidth_eq dirs Hnd Hne) | ].
  fold n step.
  repeat split.
  - qc2q. rewrite tenth_value. nra.
  - qc2q. rewrite tenth_value, half_value, width_value. nra.
  - qc2q. rewrite tenth_value, half_value, width_value. nra.
  - intros e' He'.
    assert (nth_error dirs (S i) = Some (Bar.director e')) as Hi'
        by (apply map_nth_error, He').
    eexists. split; [ exact (band_apply_nth dirs Hnd Hne (S i) _ Hi') | ].
    fold n step. rewrite Qc_of_nat_S.
    qc2q. rewrite tenth_value, half_value, width_value. nra.
Qed.

Lemma bars_layout_witness :
  let out := barFinalArr tied_movies in
  let e := nth 0 out {| Bar.director := EmptyString; Bar.score := Undefined |} in
  nth_error out 0 = Some e
  /\ exists x w,
       rect_x tied_movies e = Number (Num x)
       /\ rect_width tied_movies = Num w
       /\ 0 < w /\ 0 <= x /\ x + w <= width
       /\ forall e', nth_error out 1 = Some e' ->
                     exists x', rect_x tied_movies e' = Number (Num x')
                                /\ x + w < x'.
Proof.
  intros out e.
  assert (nth_error out 0 = Some e) as H by reflexivity.
  split; [ exact H | exact (bars_layout tied_movies 0 e H) ].
Defined.

(** X12. The height of a bar is proportional to the score: the height of
    the chart times the score over the greatest score of the output.
    When that greatest score is 0 every bar has half the height of the
    chart, and the bar of a director without a mean has no height at
    all (NaN). *)
Theorem rect_heights (data : list Movie.t) :
  Forall
    (fun e =>
       match Bar.score e with
       | Number (Num s) =>
           forall m, D3.max (barFinalArr data) Bar.score = Number (Num m) ->
                     rect_height data e
                     = Num (if Qc_eq_bool m 0 then height * half
                            else height * (s / m))
       | _ => rect_y data e = Undefined /\ rect_height data e = NaN
       end)
    (barFinalArr data).
Proof.
  apply Forall_forall. intros e He. apply barFinalArr_In_entries in He.
  pose proof (barEntries_scores data) as Hs. rewrite Forall_forall in Hs.
  destruct (Hs e He) as [ Hu | (s & Es) ].
  - rewrite Hu. unfold rect_height, rect_y. rewrite Hu. split; reflexivity.
  - rewrite Es. intros m Hm. unfold rect_height, rect_y. rewrite Es.
    assert (D3.linear_domain (barYScale data) = (Num 0, Num m)) as Hd.
    { unfold barYScale, D3.scaleLinear. cbn [D3.linear_domain fst snd ToNumber].
      rewrite Hm. reflexivity. }
    assert (D3.linear_range (barYScale data) = (Num height, Num 0)) as Hr
        by reflexivity.
    destruct (Qc_eq_bool m 0) eqn:E.
    + apply Qc_eq_bool_eq in E. subst m.
      rewrite (linear_apply_point _ _ _ _ _ Hd Hr). unfold minus. cbn.
      f_equal. apply Qc_is_canon. rewrite this_sub, this_mul, this_add, half_value.
      rewrite this_mul, half_value. change (this 0) with 0%Q. ring.
    + apply Qc_eq_bool_neq in E.
      rewrite (linear_apply_affine _ _ _ _ _ _ Hd Hr (not_eq_sym E)).
      unfold minus. cbn. f_equal.
      field; repeat split;
        first [ exact E | intros H; apply E; rewrite <- H; ring ].
Qed.

(* ================================================================== *)
(** * Further properties: the ticks of the year axis *)
(* ================================================================== *)

Lemma this_Qc_of_Z (z : Z) : this (Qc_of_Z z) = inject_Z z.
Proof.
  unfold Qc_of_Z. cbn [this Q2Qc]. apply Qred_identity. cbn. apply Z.gcd_1_r.
Qed.

Lemma Qc_of_Z_add (x y : Z) : Qc_of_Z (x + y) = Qc_of_Z x + Qc_of_Z y.
Proof.
  apply Qc_is_canon. rewrite this_add, !this_Qc_of_Z, inject_Z_plus.
  reflexivity.
Qed.

Lemma Qc_of_Z_le (x y : Z) : Qc_of_Z x <= Qc_of_Z y <-> (x <= y)%Z.
Proof. unfold Qcle. rewrite !this_Qc_of_Z, <- Zle_Qle. reflexivity. Qed.

Lemma Qc_of_Z_lt (x y : Z) : Qc_of_Z x < Qc_of_Z y <-> (x < y)%Z.
Proof. unfold Qclt. rewrite !this_Qc_of_Z, <- Zlt_Qlt. reflexivity. Qed.

Lemma Qc_of_Z_inj (x y : Z) : Qc_of_Z x = Qc_of_Z y -> x = y.
Proof.
  intros H. apply (f_equal this) in H. rewrite !this_Qc_of_Z in H.
  injection H as H. exact H.
Qed.

Lemma min_fold {A : Type} (valueof : A -> value) (l : list A) (m0 : Qc) :
  Forall (fun x => exists q, valueof x = Number (Num q)) l ->
  exists m,
    fold_left (min_step valueof) l (Number (Num m0)) = Number (Num m)
    /\ m <= m0
    /\ Forall (fun x => m <= amount (valueof x)) l
    /\ (m = m0 \/ exists x, In x l /\ valueof x = Number (Num m)).
Proof.
  intros H. revert m0. induction H as [ | x l (q & Hq) _ IH ]; intros m0.
  - exists m0. cbn. repeat split; [ apply Qcle_refl | constructor | left; reflexivity ].
  - cbn [fold_left]. unfold min_step at 2. cbv zeta. rewrite Hq.
    cbn [neq_null is_undefined andb orb].
    unfold gt. cbn [ToNumber number_lt]. rewrite orb_false_r.
    destruct (Qc_ltb q m0) eqn:E.
    + apply Qc_ltb_lt in E. destruct (IH q) as (m & Hm & Hle & Hall & Hat).
      exists m. rewrite Hm. repeat split.
      * eapply Qcle_trans; [ exact Hle | apply Qclt_le_weak, E ].
      * constructor; [ rewrite Hq; exact Hle | exact Hall ].
      * right. destruct Hat as [ -> | (y & Hy & Hv) ].
        -- exists x. split; [ left; reflexivity | exact Hq ].
        -- exists y. split; [ right; exact Hy | exact Hv ].
    + assert (m0 <= q) as Hqm.
      { apply Qcnot_lt_le. intros Hlt. apply Qc_ltb_lt in Hlt. congruence. }
      destruct (IH m0) as (m & Hm & Hle & Hall & Hat).
      exists m. rewrite Hm. repeat split.
      * exact Hle.
      * constructor; [ rewrite Hq; cbn; eapply Qcle_trans; eauto | exact Hall ].
      * destruct Hat as [ -> | (y & Hy & Hv) ]; [ left; reflexivity | ].
        right. exists y. split; [ right; exact Hy | exact Hv ].
Qed.

(** On values that are all numbers, [d3.min] is the least of them. *)
Lemma min_numeric {A : Type} (valueof : A -> value) (l : list A) :
  l <> [] ->
  Forall (fun x => exists q, valueof x = Number (Num q)) l ->
  exists m,
    D3.min l valueof = Number (Num m)
    /\ Forall (fun x => m <= amount (valueof x)) l
    /\ exists x, In x l /\ valueof x = Number (Num m).
Proof.
  intros Hne H. destruct l as [ | x l ]; [ congruence | ].
  inversion H as [ | ? ? (q & Hq) Hl ]; subst.
  change (D3.min (x :: l) valueof)
    with (fold_left (min_step valueof) l (min_step valueof Undefined x)).
  unfold min_step at 2. cbv zeta. rewrite Hq.
  cbn [neq_null is_undefined andb orb]. unfold gt, ge.
  cbn [ToNumber number_lt number_ge].
  assert (Qc_leb q q = true) as -> by (apply Qc_leb_le, Qcle_refl).
  cbn [orb]. destruct (min_fold valueof l q Hl) as (m & Hm & Hle & Hall & Hat).
  exists m. split; [ exact Hm | split ].
  - constructor; [ rewrite Hq; exact Hle | exact Hall ].
  - destruct Hat as [ -> | (y & Hy & Hv) ].
    + exists x. split; [ left; reflexivity | exact Hq ].
    + exists y. split; [ right; exact Hy | exact Hv ].
Qed.

Lemma integers_from_length (a : Z) (n : nat) :
  List.length (integers_from a n) = n.
Proof. unfold integers_from. rewrite length_map, length_seq. reflexivity. Qed.

(** [d3.range] from an integer to an integer: the integers between. *)
Lemma range_integers (a b : Z) :
  (a <= b)%Z -> (b - a + 1 < 2 ^ 31)%Z ->
  D3.range (Number (Num (Qc_of_Z a))) (Number (Num (Qc_of_Z b + 1)))
  = Some (integers_from a (Z.to_nat (b - a + 1))).
Proof.
  intros Hab Hspan. unfold D3.range. cbn [ToNumber sub].
  assert (Qc_of_Z b + 1 - Qc_of_Z a = Qc_of_Z (b - a + 1)) as ->.
  { replace (b - a + 1)%Z with (b + 1 + - a)%Z by lia.
    rewrite !Qc_of_Z_add. apply Qc_is_canon.
    rewrite this_sub, !this_add, !this_Qc_of_Z.
    change (this 1) with (inject_Z 1). rewrite inject_Z_opp. ring. }
  set (s := (b - a + 1)%Z) in *.
  assert (div (Num (Qc_of_Z s)) (Num 1) = Num (Qc_of_Z s)) as ->.
  { unfold div. change (Qc_eq_bool 1 0) with false. cbv iota. f_equal. field.
    discriminate. }
  assert (Math_ceil (Num (Qc_of_Z s)) = Num (Qc_of_Z s)) as ->.
  { unfold Math_ceil. rewrite this_Qc_of_Z, Qceiling_Z. reflexivity. }
  assert (D3.Math_max (Num 0) (Num (Qc_of_Z s)) = Num (Qc_of_Z s)) as ->.
  { unfold D3.Math_max.
    assert (Qc_ltb 0 (Qc_of_Z s) = true) as ->; [ | reflexivity ].
    apply Qc_ltb_lt. change 0 with (Qc_of_Z 0). apply Qc_of_Z_lt. lia. }
  assert (ToInt32 (Num (Qc_of_Z s)) = s) as ->.
  { unfold ToInt32. rewrite this_Qc_of_Z. cbn [Qnum Qden inject_Z].
    rewrite Z.quot_1_r, Z.mod_small by lia. lia. }
  assert ((s <? 0)%Z = false) as -> by (apply Z.ltb_ge; lia).
  f_equal. unfold integers_from. apply map_ext. intros i. cbn [add mul].
  f_equal. rewrite Qc_of_Z_add. unfold Qc_of_nat. ring.
Qed.

(** X13. When the years of the series are integers below 2^31, the tick
    values of the year axis exist, are consecutive integers, and hold
    every year of the series; an empty series has no tick. *)
Theorem tickValues_cover (data : list Movie.t) :
  Forall (fun p => exists z, LinePoint.year p = Number (Num (Qc_of_Z z))
                             /\ (z < 2 ^ 31)%Z)
         (lineData data) ->
  exists a ticks,
    tickValues data = Some ticks
    /\ ticks = integers_from a (List.length ticks)
    /\ Forall (fun p => In (ToNumber (LinePoint.year p)) ticks) (lineData data)
    /\ (lineData data = [] -> ticks = []).
Proof.
  intros Hint.
  destruct (lineData data) as [ | p0 l ] eqn:El.
  { exists 0%Z, []. unfold tickValues. rewrite El.
    repeat split; try reflexivity. constructor. }
  rewrite <- El in *.
  assert (lineData data <> []) as Hne by congruence.
  assert (Forall (fun p => exists q, LinePoint.year p = Number (Num q))
                 (lineData data)) as Hnum.
  { eapply Forall_impl; [ | exact Hint ]. intros p (z & E & _). eexists. exact E. }
  destruct (min_numeric _ _ Hne Hnum) as (m & Hmin & Hlo & pa & Hpa & Epa).
  destruct (max_numeric _ _ Hne Hnum) as (M & Hmax & Hhi & pb & Hpb & Epb).
  rewrite Forall_forall in Hint, Hlo, Hhi.
  destruct (Hint pa Hpa) as (a & Ea & _). destruct (Hint pb Hpb) as (b & Eb & Hb).
  assert (m = Qc_of_Z a) as -> by congruence.
  assert (M = Qc_of_Z b) as -> by congruence.
  assert (2010 <= a)%Z as Ha.
  { pose proof (lineData_Forall _ _ (lineEntries_points data)) as Hp. rewrite Forall_forall in Hp.
    destruct (Hp pa Hpa) as (y & Ey & Hy & _).
    apply Qc_of_Z_le. congruence. }
  assert (a <= b)%Z as Hab.
  { apply Qc_of_Z_le. specialize (Hlo pb Hpb). rewrite Eb in Hlo. exact Hlo. }
  exists a, (integers_from a (Z.to_nat (b - a + 1))).
  split; [ | split; [ | split ] ].
  - unfold tickValues. rewrite Hmin, Hmax. unfold plus. cbn [ToNumber add].
    apply range_integers; lia.
  - rewrite integers_from_length. reflexivity.
  - apply Forall_forall. intros p Hp.
    destruct (Hint p Hp) as (z & Ez & _). rewrite Ez. cbn [ToNumber].
    assert (a <= z <= b)%Z as Hz.
    { specialize (Hlo p Hp). specialize (Hhi p Hp). rewrite Ez in Hlo, Hhi.
      cbn [amount] in Hlo, Hhi.
      apply (proj1 (Qc_of_Z_le _ _)) in Hlo. apply (proj1 (Qc_of_Z_le _ _)) in Hhi.
      lia. }
    unfold integers_from. apply in_map_iff. exists (Z.to_nat (z - a)). split.
    + do 2 f_equal. lia.
    + apply in_seq. lia.
  - intros E. congruence.
Qed.

Lemma tickValues_cover_witness :
  let data := [ movie (num 5) Null (num 2013) "A";
                movie (num 7) Null (num 2010) "B" ] in
  Forall (fun p => exists z, LinePoint.year p = Number (Num (Qc_of_Z z))
                             /\ (z < 2 ^ 31)%Z)
         (lineData data)
  /\ exists a ticks,
       tickValues data = Some ticks
       /\ ticks = integers_from a (List.length ticks)
       /\ Forall (fun p => In (ToNumber (LinePoint.year p)) ticks) (lineData data)
       /\ (lineData data = [] -> ticks = []).
Proof.
  intros data.
  assert (Forall (fun p => exists z, LinePoint.year p = Number (Num (Qc_of_Z z))
                                     /\ (z < 2 ^ 31)%Z)
                 (lineData data)) as H.
  { repeat constructor.
    - exists 2010%Z. split; [ reflexivity | reflexivity ].
    - exists 2013%Z. split; [ reflexivity | reflexivity ]. }
  split; [ exact H | exact (tickValues_cover data H) ].
Defined.

(** [d3.range] over a span of 2^31 integers or more: the count wraps
    to a negative number and the array cannot be built. *)
Lemma range_overflow (a b : Z) :
  (2 ^ 31 <= b - a + 1 < 2 ^ 32)%Z ->
  D3.range (Number (Num (Qc_of_Z a))) (Number (Num (Qc_of_Z b + 1))) = None.
Proof.
  intros Hspan. unfold D3.range. cbn [ToNumber sub].
  assert (Qc_of_Z b + 1 - Qc_of_Z a = Qc_of_Z (b - a + 1)) as ->.
  { replace (b - a + 1)%Z with (b + 1 + - a)%Z by lia.
    rewrite !Qc_of_Z_add. apply Qc_is_canon.
    rewrite this_sub, !this_add, !this_Qc_of_Z.
    change (this 1) with (inject_Z 1). rewrite inject_Z_opp. ring. }
  set (s := (b - a + 1)%Z) in *.
  assert (div (Num (Qc_of_Z s)) (Num 1) = Num (Qc_of_Z s)) as ->.
  { unfold div. change (Qc_eq_bool 1 0) with false. cbv iota. f_equal. field.
    discriminate. }
  assert (Math_ceil (Num (Qc_of_Z s)) = Num (Qc_of_Z s)) as ->.
  { unfold Math_ceil. rewrite this_Qc_of_Z, Qceiling_Z. reflexivity. }
  assert (D3.Math_max (Num 0) (Num (Qc_of_Z s)) = Num (Qc_of_Z s)) as ->.
  { unfold D3.Math_max.
    assert (Qc_ltb 0 (Qc_of_Z s) = true) as ->; [ | reflexivity ].
    apply Qc_ltb_lt. change 0 with (Qc_of_Z 0). apply Qc_of_Z_lt. lia. }
  assert (ToInt32 (Num (Qc_of_Z s)) = (s - 2 ^ 32)%Z) as ->.
  { unfold ToInt32. rewrite this_Qc_of_Z. cbn [Qnum Qden inject_Z].
    rewrite Z.quot_1_r.
    replace (s + 2 ^ 31)%Z with ((s - 2 ^ 31) + 1 * 2 ^ 32)%Z by lia.
    rewrite Z.mod_add, Z.mod_small by lia. lia. }
  assert ((s - 2 ^ 32 <? 0)%Z = true) as -> by (apply Z.ltb_lt; lia).
  reflexivity.
Qed.

(** X14. When the least and the greatest year of the series are integers
    2^31 - 1 or more apart (and less than 2^32), the count of ticks wraps
    to a negative number: building the tick values throws. *)
Theorem tickValues_overflow (data : list Movie.t) (a b : Z) :
  D3.min (lineData data) LinePoint.year = Number (Num (Qc_of_Z a)) ->
  D3.max (lineData data) LinePoint.year = Number (Num (Qc_of_Z b)) ->
  (2 ^ 31 <= b - a + 1 < 2 ^ 32)%Z ->
  tickValues data = None.
Proof.
  intros Hmin Hmax Hspan. unfold tickValues. rewrite Hmin, Hmax.
  unfold plus. cbn [ToNumber add]. apply range_overflow, Hspan.
Qed.

Lemma tickValues_overflow_witness :
  let data := [ movie (num 1) Null (num 2010) "A";
                movie (num 1) Null (num 2147485657) "B" ] in
  D3.min (lineData data) LinePoint.year = Number (Num (Qc_of_Z 2010))
  /\ D3.max (lineData data) LinePoint.year = Number (Num (Qc_of_Z 2147485657))
  /\ (2 ^ 31 <= 2147485657 - 2010 + 1 < 2 ^ 32)%Z
  /\ tickValues data = None.
Proof.
  intros data.
  assert (D3.min (lineData data) LinePoint.year = Number (Num (Qc_of_Z 2010)))
    as H1 by reflexivity.
  assert (D3.max (lineData data) LinePoint.year
          = Number (Num (Qc_of_Z 2147485657))) as H2 by reflexivity.
  assert (2 ^ 31 <= 2147485657 - 2010 + 1 < 2 ^ 32)%Z as H3 by lia.
  split; [ exact H1 | split; [ exact H2 | split; [ exact H3 | ] ] ].
  exact (tickValues_overflow data 2010 2147485657 H1 H2 H3).
Defined.
